(** * Easegress traffic-plane core: a shallow embedding and its properties

    The definitions below follow the Go sources function by function:
    - [FSM]        pkg/object/function/spec/fsm.go
    - [Mqtt]       mqttproxy session (publish / puback / doResend)
    - [Proxy]      pkg/filters/proxy/proxy.go (Validate, Handle)
    - [HttpServer] httpserver runtime (reload, startServer, serveFailed)
    - [Udp]        udpproxy session write path
    - [HeaderToJSON] pkg/filter/headertojson/headertojson.go
    - [HttpStat]   httpstat.HTTPStat.Stat

    Machine integers are [Z] with the wrap-around written out, Go maps are
    [gmap]s, Go map-sets are [gset]s, goroutine launches are recorded in an
    output trace, Go's float64 is the kernel's binary64 [PrimFloat.float]. *)

From Stdlib Require Import ZArith List Bool Ascii String Strings.Byte Lia.
From Stdlib Require Floats.PrimFloat.
From stdpp Require Import base gmap strings list.

Local Open Scope Z_scope.

(** ** Machine integers *)

Definition wrap (w : Z) (x : Z) : Z := x mod 2 ^ w.
Definition u8 (x : Z) : Z := wrap 8 x.
Definition u16 (x : Z) : Z := wrap 16 x.
Definition u64 (x : Z) : Z := wrap 64 x.

(** Two's-complement reading of a 64-bit pattern (Go's int64). *)
Definition i64 (x : Z) : Z :=
  let r := wrap 64 x in if r <? 2 ^ 63 then r else r - 2 ^ 64.

(** * The FaaS function state machine (fsm.go) *)

Module FSM.

Local Open Scope string_scope.

Definition State := string.
Definition Event := string.

Record transition := Transition {
  t_From : State;
  t_Event : Event;
  t_To : State
}.

Record FSM := { currentState : State }.

Definition FailedState : State := "failed".
Definition InitialState : State := "initial".
Definition ActiveState : State := "active".
Definition InactiveState : State := "inactive".
(* only for keep fsm working *)
Definition DesctroyState : State := "desctory".

Definition CreateEvent : Event := "create".
Definition StartEvent : Event := "start".
Definition StopEvent : Event := "stop".
Definition UpdateEvent : Event := "update".
Definition DeleteEvent : Event := "delete".
Definition ReadyEvent : Event := "ready".
Definition PendingEvent : Event := "pending".
Definition ErrorEvent : Event := "error".

Definition validState : gset State :=
  {[ InitialState; ActiveState; InactiveState; FailedState; DesctroyState ]}.

Definition validEvent : gset Event :=
  {[ UpdateEvent; DeleteEvent; StopEvent; StartEvent; CreateEvent;
     PendingEvent; ErrorEvent; ReadyEvent ]}.

(** The literal of [init()]. *)
Definition table : list transition :=
  [ Transition InitialState UpdateEvent InitialState;
    Transition InitialState DeleteEvent DesctroyState;
    Transition InitialState ReadyEvent ActiveState;
    Transition InitialState PendingEvent InitialState;
    Transition InitialState ErrorEvent FailedState;

    Transition ActiveState StopEvent InactiveState;
    Transition ActiveState ErrorEvent FailedState;
    Transition ActiveState ReadyEvent ActiveState;
    Transition ActiveState PendingEvent FailedState;

    Transition InactiveState UpdateEvent InitialState;
    Transition InactiveState StartEvent InactiveState;
    Transition InactiveState DeleteEvent DesctroyState;
    Transition InactiveState ReadyEvent ActiveState;
    Transition InactiveState PendingEvent FailedState;
    Transition InactiveState ErrorEvent FailedState;

    Transition FailedState DeleteEvent DesctroyState;
    Transition FailedState UpdateEvent InitialState;
    Transition FailedState ReadyEvent InitialState;
    Transition FailedState ErrorEvent FailedState;
    Transition FailedState PendingEvent FailedState ].

(** [transitions[t.Event] = append(transitions[t.Event], t)], for each row of
    the table in order, starting from the empty map. *)
Definition add_transition (m : gmap Event (list transition)) (t : transition)
  : gmap Event (list transition) :=
  <[ t_Event t := (default [] (m !! t_Event t) ++ [t])%list ]> m.

Definition transitions : gmap Event (list transition) :=
  foldl add_transition ∅ table.

Definition InitState : State := InitialState.

Definition InitFSM (state : State) : FSM + string :=
  if decide (state ∈ validState)
  then inl {| currentState := state |}
  else inr ("invalid state: " +:+ state).

(** The [for _, v := range t] loop: the first row whose [From] is the
    current state decides. *)
Fixpoint scan (cur : State) (t : list transition) : option State :=
  match t with
  | [] => None
  | v :: t' => if String.eqb cur (t_From v) then Some (t_To v) else scan cur t'
  end.

(** [Next] returns the FSM after the call and the returned error. *)
Definition Next (fsm : FSM) (event : Event) : FSM * option string :=
  if decide (event ∈ validEvent) then
    match
      match transitions !! event with
      | Some t => scan (currentState fsm) t
      | None => None
      end
    with
    | Some to => ({| currentState := to |}, None)
    | None =>
        (fsm, Some ("invalid event: " +:+ event +:+ ", currentState: "
                      +:+ currentState fsm))
    end
  else (fsm, Some ("unknown event: " +:+ event)).

Definition Current (fsm : FSM) : State := currentState fsm.

(** The table of section 4.7 of the specification, row by row, with the
    state the specification calls "destroyed" being [DesctroyState]. *)
Definition spec_table : list (State * Event * State) :=
  [ ("initial", "update", "initial");
    ("initial", "delete", DesctroyState);
    ("initial", "ready", "active");
    ("initial", "pending", "initial");
    ("initial", "error", "failed");
    ("active", "stop", "inactive");
    ("active", "error", "failed");
    ("active", "ready", "active");
    ("active", "pending", "failed");
    ("inactive", "update", "initial");
    ("inactive", "start", "inactive");
    ("inactive", "delete", DesctroyState);
    ("inactive", "ready", "active");
    ("inactive", "pending", "failed");
    ("inactive", "error", "failed");
    ("failed", "delete", DesctroyState);
    ("failed", "update", "initial");
    ("failed", "ready", "initial");
    ("failed", "pending", "failed");
    ("failed", "error", "failed") ].

Fixpoint spec_target (rows : list (State * Event * State)) (s : State) (e : Event)
  : option State :=
  match rows with
  | [] => None
  | (f, ev, to) :: rows' =>
      if String.eqb s f && String.eqb e ev then Some to else spec_target rows' s e
  end.

(** A row of [table] as a row of the specification's table, and the rows of
    one event. *)
Definition row_of (t : transition) : State * Event * State :=
  (t_From t, t_Event t, t_To t).

Definition rows_for (e : Event) (l : list transition) : list transition :=
  List.filter (fun t => String.eqb e (t_Event t)) l.

Definition is_error (r : FSM * option string) : Prop := ∃ msg, r.2 = Some msg.

(** A caller that feeds events one after the other and goes on after an
    error, as the function controller does. *)
Definition runEvents (fsm : FSM) (events : list Event) : FSM :=
  foldl (fun f e => (Next f e).1) fsm events.

End FSM.

(** * The MQTT session (mqttproxy) *)

(** ** encoding/base64, StdEncoding

    [getMsg] stores the payload base64-encoded and [doResend] decodes it
    again. *)

Module Base64.

Local Open Scope N_scope.

Definition alphabet : string :=
  "ABCDEFGHIJKLMNOPQRSTUVWXYZabcdefghijklmnopqrstuvwxyz0123456789+/".

Definition pad : ascii := "="%char.

Definition enc (n : N) : ascii :=
  default pad (String.get (N.to_nat n) alphabet).

Fixpoint index_of (c : ascii) (l : list ascii) (i : N) : option N :=
  match l with
  | [] => None
  | x :: l' => if Ascii.eqb c x then Some i else index_of c l' (i + 1)
  end.

Definition dec (c : ascii) : option N :=
  index_of c (list_ascii_of_string alphabet) 0.

Definition byte_of (n : N) : byte := default Byte.x00 (Byte.of_N (n mod 256)).

Fixpoint encode_bytes (l : list byte) : list ascii :=
  match l with
  | [] => []
  | [a] =>
      let n := Byte.to_N a * 65536 in
      [enc (n / 262144); enc (n / 4096 mod 64); pad; pad]
  | [a; b] =>
      let n := Byte.to_N a * 65536 + Byte.to_N b * 256 in
      [enc (n / 262144); enc (n / 4096 mod 64); enc (n / 64 mod 64); pad]
  | a :: b :: c :: l' =>
      let n := Byte.to_N a * 65536 + Byte.to_N b * 256 + Byte.to_N c in
      enc (n / 262144) :: enc (n / 4096 mod 64) :: enc (n / 64 mod 64)
        :: enc (n mod 64) :: encode_bytes l'
  end.

Definition EncodeToString (src : list byte) : string :=
  string_of_list_ascii (encode_bytes src).

Definition is_newline (c : ascii) : bool :=
  Ascii.eqb c "010"%char || Ascii.eqb c "013"%char.

(** Quanta of four characters; padding only closes the input. *)
Fixpoint decode_quanta (l : list ascii) : option (list byte) :=
  match l with
  | [] => Some []
  | a :: b :: c :: d :: l' =>
      match dec a, dec b with
      | Some x, Some y =>
          if Ascii.eqb d pad then
            match l' with
            | [] =>
                if Ascii.eqb c pad
                then Some [byte_of ((x * 64 + y) / 16)]
                else match dec c with
                     | Some z =>
                         let n := (x * 64 + y) * 64 + z in
                         Some [byte_of (n / 1024); byte_of (n / 4)]
                     | None => None
                     end
            | _ => None
            end
          else
            match dec c, dec d, decode_quanta l' with
            | Some z, Some w, Some rest =>
                let n := ((x * 64 + y) * 64 + z) * 64 + w in
                Some (byte_of (n / 65536) :: byte_of (n / 256) :: byte_of n :: rest)
            | _, _, _ => None
            end
      | _, _ => None
      end
  | _ => None
  end.

(** [None] is the decoder's CorruptInputError. *)
Definition DecodeString (s : string) : option (list byte) :=
  decode_quanta
    (List.filter (fun c => negb (is_newline c)) (list_ascii_of_string s)).

(** The three facts about a 6-bit digit that decoding relies on, as a test
    that runs. *)
Definition enc_ok (n : N) : bool :=
  match dec (enc n) with
  | Some m => N.eqb m n
  | None => false
  end && negb (Ascii.eqb (enc n) pad) && negb (is_newline (enc n)).

End Base64.

Module Mqtt.

(** Message is the message sent from broker to client. *)
Record Message := {
  Topic : string;
  B64Payload : string;
  Qos : Z
}.

(** The fields of paho's [packets.PublishPacket] that the session sets. *)
Record PublishPacket := {
  pkt_Qos : Z;
  pkt_TopicName : string;
  pkt_Payload : list byte;
  pkt_MessageID : Z
}.

Record SessionInfo := {
  EGName : string;
  Topics : gmap string Z;
  ClientID : string;
  CleanFlag : bool
}.

Record Session := {
  info : SessionInfo;
  pending : gmap Z Message;
  pendingQueue : list Z;
  nextID : Z
}.

Definition Qos0 : Z := 0.
Definition Qos1 : Z := 1.
Definition Qos2 : Z := 2.

Definition getMsg (topic : string) (payload : list byte) (qos : Z) : Message :=
  {| Topic := topic;
     B64Payload := Base64.EncodeToString payload;
     Qos := qos |}.

(** [Session.init]: a fresh session for a CONNECT packet. *)
Definition init (egName clientID : string) (cleanSession : bool) : Session :=
  {| info := {| EGName := egName; Topics := ∅; ClientID := clientID;
                CleanFlag := cleanSession |};
     pending := ∅;
     pendingQueue := [];
     nextID := 0 |}.

Definition set_Topics (s : Session) (t : gmap string Z) : Session :=
  {| info := {| EGName := EGName (info s); Topics := t;
                ClientID := ClientID (info s); CleanFlag := CleanFlag (info s) |};
     pending := pending s;
     pendingQueue := pendingQueue s;
     nextID := nextID s |}.

(** [for i, t := range topics { s.info.Topics[t] = int(qoss[i]) }]; the
    boolean is false when [qoss[i]] is out of range (the loop panics there,
    with the earlier topics already written). *)
Fixpoint subscribe_loop (topics : list string) (qoss : list Z)
         (m : gmap string Z) : gmap string Z * bool :=
  match topics with
  | [] => (m, true)
  | t :: topics' =>
      match qoss with
      | [] => (m, false)
      | q :: qoss' => subscribe_loop topics' qoss' (<[t := q]> m)
      end
  end.

Definition subscribe (s : Session) (topics : list string) (qoss : list Z)
  : Session :=
  set_Topics s (subscribe_loop topics qoss (Topics (info s))).1.

Definition unsubscribe (s : Session) (topics : list string) : Session :=
  set_Topics s (foldl (fun m t => delete t m) (Topics (info s)) topics).

(** Returns the packet and the session with [nextID] advanced; the overflow
    of the uint16 is intended by the source. *)
Definition getPacketFromMsg (s : Session) (topic : string) (payload : list byte)
           (qos : Z) : PublishPacket * Session :=
  ({| pkt_Qos := qos; pkt_TopicName := topic; pkt_Payload := payload;
      pkt_MessageID := nextID s |},
   {| info := info s; pending := pending s; pendingQueue := pendingQueue s;
      nextID := u16 (nextID s + 1) |}).

(** [publish]: [client] tells whether [broker.getClient] found the client;
    the result lists the packets handed to [client.writePacket]. *)
Definition publish (client : bool) (s : Session) (topic : string)
           (payload : list byte) (qos : Z) : Session * list PublishPacket :=
  match Topics (info s) !! topic with
  | None => (s, [])
  | Some q =>
      if u8 q <? qos then (s, [])
      else if negb client then (s, [])
      else
        let '(p, s1) := getPacketFromMsg s topic payload qos in
        if qos =? Qos0 then (s1, [p])
        else if qos =? Qos1 then
          let msg := getMsg topic payload qos in
          ({| info := info s1;
              pending := <[pkt_MessageID p := msg]> (pending s1);
              pendingQueue := (pendingQueue s1 ++ [pkt_MessageID p])%list;
              nextID := nextID s1 |}, [p])
        else (s1, [])
  end.

Definition puback (s : Session) (messageID : Z) : Session :=
  {| info := info s; pending := delete messageID (pending s);
     pendingQueue := pendingQueue s; nextID := nextID s |}.

(** The [for i, idx := range s.pendingQueue] search of [doResend]: the
    queue from the first id still pending on ([s.pendingQueue[i:]]), that id
    and its message. *)
Fixpoint first_pending (pend : gmap Z Message) (queue : list Z)
  : option (list Z * Z * Message) :=
  match queue with
  | [] => None
  | idx :: queue' =>
      match pend !! idx with
      | Some val => Some (queue, idx, val)
      | None => first_pending pend queue'
      end
  end.

Definition doResend (client : bool) (s : Session) : Session * list PublishPacket :=
  if decide (size (pending s) = 0%nat) then
    ({| info := info s; pending := pending s; pendingQueue := [];
        nextID := nextID s |}, [])
  else
    match first_pending (pending s) (pendingQueue s) with
    | Some (rest, idx, val) =>
        let s1 := {| info := info s; pending := pending s;
                     pendingQueue := rest; nextID := nextID s |} in
        match Base64.DecodeString (B64Payload val) with
        | None => (s1, [])
        | Some payload =>
            let p := {| pkt_Qos := u8 (Qos val); pkt_TopicName := Topic val;
                        pkt_Payload := payload; pkt_MessageID := idx |} in
            (s1, if client then [p] else [])
        end
    | None => (s, [])
    end.

(** The operations a connection and the background loop run on a session. *)
Inductive op :=
| OpSubscribe (topics : list string) (qoss : list Z)
| OpUnsubscribe (topics : list string)
| OpPublish (client : bool) (topic : string) (payload : list byte) (qos : Z)
| OpPuback (messageID : Z)
| OpResend (client : bool).

Definition step (s : Session) (o : op) : Session :=
  match o with
  | OpSubscribe topics qoss => subscribe s topics qoss
  | OpUnsubscribe topics => unsubscribe s topics
  | OpPublish client topic payload qos => (publish client s topic payload qos).1
  | OpPuback messageID => puback s messageID
  | OpResend client => (doResend client s).1
  end.

Definition run (s : Session) (ops : list op) : Session := foldl step s ops.

(** The two sides of the invariant of section 3. *)
Definition pending_keys (s : Session) : gset Z := dom (pending s).
Definition queued_ids (s : Session) : gset Z := list_to_set (pendingQueue s).

(** Every pending packet id is still queued. *)
Definition queued_pending (s : Session) : Prop :=
  ∀ id, is_Some (pending s !! id) -> id ∈ pendingQueue s.

(** The topic is subscribed with a stored qos that, read as a byte as
    [publish] does, is at least the delivery qos. *)
Definition subscribed_at (s : Session) (topic : string) (qos : Z) : Prop :=
  ∃ q, Topics (info s) !! topic = Some q ∧ qos <= u8 q.

Definition same_store (s s' : Session) : Prop :=
  pending s' = pending s ∧ pendingQueue s' = pendingQueue s.

(** [allSubscribes]: the topics and their qos bytes, in the order in which
    the map is ranged over; Go leaves that order open, [map_to_list] fixes
    one. *)
Definition subscribes_in_order (l : list (string * Z)) : list string * list Z :=
  (l.*1, u8 <$> l.*2).

Definition allSubscribes (s : Session) : list string * list Z :=
  subscribes_in_order (map_to_list (Topics (info s))).

Definition cleanSession (s : Session) : bool := CleanFlag (info s).

(** [fmt.Sprintf(sessionPrefix, clientID)] and
    [fmt.Sprintf(topicPrefix, topic)]. *)
Definition sessionPrefix : string := "/mqtt/sessionMgr/clientID/".
Definition topicPrefix : string := "/mqtt/topicMgr/topic/".

Definition sessionStoreKey (clientID : string) : string :=
  String.append sessionPrefix clientID.

Definition topicStoreKey (topic : string) : string :=
  String.append topicPrefix topic.

(** Every stored message holds the encoding of some payload. *)
Definition encoded_pending (s : Session) : Prop :=
  ∀ id m, pending s !! id = Some m ->
          ∃ payload, B64Payload m = Base64.EncodeToString payload.

End Mqtt.

(** * The Proxy filter (proxy.go) *)

Module Proxy.

Section Model.

(** Declared in pool.go, which this development does not embed: the
    request-matcher spec and the memory-cache spec of a pool, the error of
    [ServerPoolSpec.Validate], the request, the context, and a running
    [ServerPool] with its filter's [Match] and its [handle]. *)
Context {FilterSpec MemoryCacheSpec PoolError : Type}.
Context {Request Ctx ServerPool : Type}.

Record ServerPoolSpec := {
  Filter : option FilterSpec;
  MemoryCache : option MemoryCacheSpec
}.

(** [Name] is the name of the embedded [filters.BaseSpec]. *)
Record Spec := {
  Name : string;
  Pools : list ServerPoolSpec;
  MirrorPool : option ServerPoolSpec
}.

Variable poolValidate : ServerPoolSpec -> option PoolError.

Inductive error :=
| ErrPool (i : nat) (err : PoolError)  (* "pool %d: %v" *)
| ErrMainPool       (* "one and only one mainPool is required" *)
| ErrMirrorFilter   (* "filter of mirrorPool is required" *)
| ErrMirrorCache.   (* "memoryCache must be empty in mirrorPool" *)

(** The [for i, pool := range s.Pools] loop: counts the pools without a
    filter and stops at the first pool that does not validate. *)
Fixpoint validatePools (i : nat) (numMainPool : nat)
         (pools : list ServerPoolSpec) : nat + error :=
  match pools with
  | [] => inl numMainPool
  | pool :: pools' =>
      let n := match Filter pool with
               | None => S numMainPool
               | Some _ => numMainPool
               end in
      match poolValidate pool with
      | Some err => inr (ErrPool i err)
      | None => validatePools (S i) n pools'
      end
  end.

(** [Validate] returns the error, [None] being Go's nil. *)
Definition Validate (s : Spec) : option error :=
  match validatePools 0 0 (Pools s) with
  | inr e => Some e
  | inl numMainPool =>
      if negb (Nat.eqb numMainPool 1) then Some ErrMainPool
      else
        match MirrorPool s with
        | Some m =>
            match Filter m with
            | None => Some ErrMirrorFilter
            | Some _ =>
                match MemoryCache m with
                | Some _ => Some ErrMirrorCache
                | None => None
                end
            end
        | None => None
        end
  end.

(** Pool [i] is the first pool that does not validate, with error [e]. *)
Definition first_invalid (pools : list ServerPoolSpec)
           (i : nat) (e : PoolError) : Prop :=
  (∃ pool, pools !! i = Some pool ∧ poolValidate pool = Some e)
  ∧ ∀ (j : nat) pool, (j < i)%nat -> pools !! j = Some pool ->
                      poolValidate pool = None.

(** The pool names that [reload] formats: "proxy#%s#main",
    "proxy#%s#candidate#%d" and "proxy#%s#mirror". *)
Inductive poolName :=
| MainName (proxy : string)
| CandidateName (proxy : string) (id : nat)
| MirrorName (proxy : string).

Variable NewServerPool : ServerPoolSpec -> poolName -> ServerPool.

(** The pool fields of the filter; a pointer is [None] when nil. *)
Record Proxy := {
  spec : Spec;
  mainPool : option ServerPool;
  candidatePools : list ServerPool;
  mirrorPool : option ServerPool
}.

(** [kind.CreateInstance]. *)
Definition CreateInstance (s : Spec) : Proxy :=
  {| spec := s; mainPool := None; candidatePools := []; mirrorPool := None |}.

(** One round of the [for _, spec := range p.spec.Pools] loop of [reload],
    on the pair of [p.mainPool] and [p.candidatePools]. *)
Definition addPool (name : string)
           (pools : option ServerPool * list ServerPool)
           (spec : ServerPoolSpec)
  : option ServerPool * list ServerPool :=
  match Filter spec with
  | None => (Some (NewServerPool spec (MainName name)), pools.2)
  | Some _ =>
      (pools.1,
       (pools.2
          ++ [NewServerPool spec (CandidateName name (length pools.2))])%list)
  end.

(** [reload], as far as the pools go (the compression and the HTTP client
    play no part in choosing a pool). *)
Definition reload (p : Proxy) : Proxy :=
  let name := Name (spec p) in
  let pools :=
    foldl (addPool name) (mainPool p, candidatePools p) (Pools (spec p)) in
  {| spec := spec p;
     mainPool := pools.1;
     candidatePools := pools.2;
     mirrorPool :=
       match MirrorPool (spec p) with
       | Some m => Some (NewServerPool m (MirrorName name))
       | None => mirrorPool p
       end |}.

Definition Init (p : Proxy) : Proxy := reload p.

Variable request : Ctx -> Request.            (* ctx.Request() *)
Variable Match : ServerPool -> Request -> bool.  (* sp.filter.Match(req) *)
Variable handle : ServerPool -> Ctx -> bool -> string.  (* sp.handle(ctx, mirror) *)

(** What [Handle] starts: a goroutine [go sp.handle(ctx, mirror)] whose
    result is dropped, or the call whose result it returns. *)
Inductive dispatch :=
| Go (sp : ServerPool) (mirror : bool)
| Call (sp : ServerPool) (mirror : bool).

(** [sp := p.mainPool; for _, v := range p.candidatePools { if
    v.filter.Match(req) { sp = v; break } }]. *)
Fixpoint choose (sp : option ServerPool) (candidates : list ServerPool)
         (req : Request) : option ServerPool :=
  match candidates with
  | [] => sp
  | v :: candidates' =>
      if Match v req then Some v else choose sp candidates' req
  end.

(** [Handle] returns the result and what it started; it is [None] when the
    pool it would call is nil. *)
Definition Handle (p : Proxy) (ctx : Ctx) : option (string * list dispatch) :=
  let req := request ctx in
  let mirrored :=
    match mirrorPool p with
    | Some m => if Match m req then [Go m true] else []
    | None => []
    end in
  match choose (mainPool p) (candidatePools p) req with
  | Some sp => Some (handle sp ctx false, (mirrored ++ [Call sp false])%list)
  | None => None
  end.

(** The number of pools without a filter expression. *)
Definition no_filter (pool : ServerPoolSpec) : bool :=
  match Filter pool with
  | None => true
  | Some _ => false
  end.

Definition mainPools (s : Spec) : nat :=
  length (List.filter no_filter (Pools s)).

(** The candidate pools of the pool specs that have a filter, in the order
    in which the spec declares them, numbered from [id]. *)
Fixpoint declared_candidates (name : string) (id : nat)
         (pools : list ServerPoolSpec) : list ServerPool :=
  match pools with
  | [] => []
  | spec :: pools' =>
      match Filter spec with
      | None => declared_candidates name id pools'
      | Some _ =>
          NewServerPool spec (CandidateName name id)
            :: declared_candidates name (S id) pools'
      end
  end.

(** [sp] is the first pool of [candidates], in order, whose filter matches,
    or [main] when none matches. *)
Definition chosen (main : ServerPool) (candidates : list ServerPool)
           (req : Request) (sp : ServerPool) : Prop :=
  (∃ i : nat, candidates !! i = Some sp ∧ Match sp req = true
       ∧ ∀ (j : nat) v, (j < i)%nat -> candidates !! j = Some v ->
                        Match v req = false)
  ∨ (sp = main ∧ ∀ v, v ∈ candidates -> Match v req = false).

End Model.

(** A spec with a main pool, a candidate pool and a mirror pool; the filter
    of a pool is a path prefix here. *)
Definition one_main_spec : @Spec string unit :=
  {| Name := "proxy-demo";
     Pools := [ {| Filter := None; MemoryCache := None |};
                {| Filter := Some "/api"%string; MemoryCache := Some tt |} ];
     MirrorPool := Some {| Filter := Some "/"%string; MemoryCache := None |} |}.

Definition demo_Match (sp : @ServerPoolSpec string unit * poolName)
           (req : string) : bool :=
  match Filter sp.1 with
  | Some pre => String.prefix pre req
  | None => false
  end.

Definition demo_handle (sp : @ServerPoolSpec string unit * poolName)
           (ctx : string) (mirror : bool) : string :=
  match sp.2 with
  | MainName _ => ""%string
  | CandidateName _ _ => "fallback"%string
  | MirrorName _ => "serverError"%string
  end.

Definition demo_proxy : @Proxy string unit (@ServerPoolSpec string unit * poolName) :=
  Init pair (CreateInstance one_main_spec).

End Proxy.

(** * The HTTPServer runtime (httpserver/runtime.go) *)

Module HttpServer.

Section Model.

(** The types of the tracing spec, the IP filter spec and a routing rule
    are declared in other packages; [reflect.DeepEqual] needs their
    equality only. *)
Context {TracingSpec IPFilterSpec Rule : Type}.
Context `{EqDecision TracingSpec, EqDecision IPFilterSpec, EqDecision Rule}.

(** Modelled from the spec: the declaration of the HTTPServer [Spec] struct
    (spec.go) is not among the sources. The fields are those of section 6
    ([port], [https], [http3], [keepAlive], [keepAliveTimeout],
    [maxConnections], [certBase64], [keyBase64], [rules]) and those that
    [needRestartServer] and [startServer] name. *)
Record Spec := {
  HTTP3 : bool;
  Port : Z;
  KeepAlive : bool;
  KeepAliveTimeout : string;
  MaxConnections : Z;
  HTTPS : bool;
  CertBase64 : string;
  KeyBase64 : string;
  CacheSize : Z;
  XForwardedFor : bool;
  Tracing : option TracingSpec;
  IPFilter : option IPFilterSpec;
  Rules : list Rule
}.

#[global] Instance Spec_eq_dec : EqDecision Spec.
Proof. solve_decision. Defined.

Inductive stateType := stateNil | stateFailed | stateRunning | stateClosed.

(** [errNil = fmt.Errorf("")]; an error is kept as its message. *)
Definition errNil : string := ""%string.

Record eventServeFailed := {
  ev_startNum : Z;
  ev_err : option string
}.

Record runtime := {
  superSpec : option Spec;      (* the object spec inside r.superSpec *)
  spec : option Spec;
  server : bool;                (* r.server != nil *)
  server3 : bool;               (* r.server3 != nil *)
  muxRules : option Spec;       (* what r.mux.reload was last given *)
  startNum : Z;                 (* uint64 *)
  state : stateType;
  err : string;
  limitListener : option Z      (* its max connections, when created *)
}.

(** What the runtime does to the listener and its servers. *)
Inductive effect :=
| Shutdown3                      (* r.server3.Close() *)
| Shutdown                       (* r.server.Shutdown(ctx), 30 s *)
| Listen (port : Z)              (* gnet.Listen("tcp", ":port") *)
| ServeHTTP3 (startNum : Z)      (* go r.runHTTP3Server(startNum) *)
| ServeHTTP (https : bool) (startNum : Z) (* go r.runHTTP1And2Server(..) *)
| LogBug.

Definition setState (r : runtime) (st : stateType) : runtime :=
  {| superSpec := superSpec r; spec := spec r; server := server r;
     server3 := server3 r; muxRules := muxRules r; startNum := startNum r;
     state := st; err := err r; limitListener := limitListener r |}.

(** [setError] stores [errNil] for nil and a copy of the message otherwise. *)
Definition setError (r : runtime) (e : option string) : runtime :=
  {| superSpec := superSpec r; spec := spec r; server := server r;
     server3 := server3 r; muxRules := muxRules r; startNum := startNum r;
     state := state r; err := default errNil e;
     limitListener := limitListener r |}.

Definition setSpec (r : runtime) (sp : option Spec) : runtime :=
  {| superSpec := superSpec r; spec := sp; server := server r;
     server3 := server3 r; muxRules := muxRules r; startNum := startNum r;
     state := state r; err := err r; limitListener := limitListener r |}.

Definition needRestartServer (cur nextSpec : Spec) : bool :=
  let mask (x : Spec) :=
    {| HTTP3 := HTTP3 x; Port := Port x; KeepAlive := KeepAlive x;
       KeepAliveTimeout := KeepAliveTimeout x;
       MaxConnections := 0;
       HTTPS := HTTPS x; CertBase64 := CertBase64 x;
       KeyBase64 := KeyBase64 x;
       CacheSize := 0;
       XForwardedFor := false;
       Tracing := None;
       IPFilter := None;
       Rules := [] |} in
  negb (bool_decide (mask cur = mask nextSpec)).

(** [startServer]; [listen] is what [gnet.Listen] returns for the port
    ([None] for success). The result is [None] when [r.spec] is nil, which
    the source dereferences. *)
Definition startServer (listen : option string) (r : runtime)
  : option (runtime * list effect) :=
  match spec r with
  | None => None
  | Some sp =>
      let n := u64 (startNum r + 1) in
      let r1 := {| superSpec := superSpec r; spec := spec r; server := true;
                   server3 := server3 r; muxRules := muxRules r;
                   startNum := n; state := stateRunning; err := errNil;
                   limitListener := limitListener r |} in
      if HTTP3 sp then
        Some ({| superSpec := superSpec r1; spec := spec r1; server := true;
                 server3 := true; muxRules := muxRules r1;
                 startNum := n; state := stateRunning; err := errNil;
                 limitListener := limitListener r1 |}, [ServeHTTP3 n])
      else
        match listen with
        | Some e =>
            Some (setError (setState r1 stateFailed) (Some e), [Listen (Port sp)])
        | None =>
            Some ({| superSpec := superSpec r1; spec := spec r1; server := true;
                     server3 := server3 r1; muxRules := muxRules r1;
                     startNum := n; state := stateRunning; err := errNil;
                     limitListener := Some (MaxConnections sp) |},
                  [Listen (Port sp); ServeHTTP (HTTPS sp) n])
        end
  end.

Definition closeServer (r : runtime) : list effect :=
  if server3 r then [Shutdown3]
  else if server r then [Shutdown]
  else [].

(** [reload]; [nextSpec] is [nextSuperSpec.ObjectSpec().( *Spec)]. *)
Definition reload (listen : option string) (r : runtime)
           (nextSpec : option Spec) : option (runtime * list effect) :=
  let r1 := {| superSpec := nextSpec; spec := spec r; server := server r;
               server3 := server3 r; muxRules := nextSpec;
               startNum := startNum r; state := state r; err := err r;
               limitListener :=
                 match nextSpec, limitListener r with
                 | Some n, Some _ => Some (MaxConnections n)
                 | _, l => l
                 end |} in
  match spec r1, nextSpec with
  | None, None => Some (r1, [LogBug])
  | None, Some n => startServer listen (setSpec r1 (Some n))
  | Some _, None =>
      let r2 := setSpec r1 None in
      Some (r2, (LogBug :: closeServer r2)%list)
  | Some cur, Some n =>
      if needRestartServer cur n then
        let r2 := setSpec r1 (Some n) in
        match startServer listen r2 with
        | Some (r3, started) => Some (r3, (closeServer r2 ++ started)%list)
        | None => None
        end
      else Some (setSpec r1 (Some n), [])
  end.

Definition handleEventCheckFailed (listen : option string) (r : runtime)
  : option (runtime * list effect) :=
  match state r with
  | stateFailed => startServer listen r
  | _ => Some (r, [])
  end.

Definition handleEventServeFailed (r : runtime) (e : eventServeFailed)
  : runtime :=
  if ev_startNum e <? startNum r then r
  else setError (setState r stateFailed) (ev_err e).

(** Some field other than [Rules], [MaxConnections], [CacheSize],
    [XForwardedFor], [Tracing] and [IPFilter] differs. *)
Definition differs_elsewhere (x y : Spec) : Prop :=
  HTTP3 x ≠ HTTP3 y ∨ Port x ≠ Port y ∨ KeepAlive x ≠ KeepAlive y
  ∨ KeepAliveTimeout x ≠ KeepAliveTimeout y ∨ HTTPS x ≠ HTTPS y
  ∨ CertBase64 x ≠ CertBase64 y ∨ KeyBase64 x ≠ KeyBase64 y.

(** The listener was stopped, respectively started, by a run of effects. *)
Definition is_stop (e : effect) : bool :=
  match e with Shutdown3 | Shutdown => true | _ => false end.
Definition is_start (e : effect) : bool :=
  match e with Listen _ | ServeHTTP3 _ | ServeHTTP _ _ => true | _ => false end.

(** The events that reach the runtime through its channel. *)
Inductive event :=
| EvCheckFailed
| EvServeFailed (e : eventServeFailed)
| EvReload (nextSpec : option Spec)
| EvClose.

(** What the event loop does: to the listener, to the mux, to the channel
    on which [Close] waits. *)
Inductive output :=
| Listener (e : effect)
| MuxClose          (* r.mux.close() *)
| Done.             (* close(e.done) *)

(** [newRuntime]: nothing is started before the first reload event. *)
Definition newRuntime (sp : Spec) : runtime :=
  {| superSpec := Some sp; spec := None; server := false; server3 := false;
     muxRules := None; startNum := 0; state := stateNil; err := errNil;
     limitListener := None |}.

Definition handleEventClose (r : runtime) : list output :=
  ((Listener <$> closeServer r) ++ [MuxClose; Done])%list.

(** How a run of the event loop ends: the channel is empty, the loop has
    returned after a close event, or a nil spec was dereferenced. *)
Inductive loop := Waiting | Returned | Panicked.

(** [fsm]: the events in channel order, each with what [gnet.Listen] would
    answer while it is handled. *)
Fixpoint fsm (r : runtime) (events : list (event * option string))
  : runtime * list output * loop :=
  match events with
  | [] => (r, [], Waiting)
  | (ev, listen) :: events' =>
      let handled :=
        match ev with
        | EvCheckFailed => inl (handleEventCheckFailed listen r)
        | EvServeFailed e => inl (Some (handleEventServeFailed r e, []))
        | EvReload nextSpec => inl (reload listen r nextSpec)
        | EvClose => inr (handleEventClose r)
        end in
      match handled with
      | inr out => (r, out, Returned)
      | inl None => (r, [], Panicked)
      | inl (Some (r', effects)) =>
          let '(r'', out, l) := fsm r' events' in
          (r'', ((Listener <$> effects) ++ out)%list, l)
      end
  end.

(** What holds of the status of a runtime at any time. *)
Definition status_ok (r : runtime) : Prop :=
  state r ≠ stateClosed
  ∧ (state r ≠ stateFailed -> err r = errNil)
  ∧ (state r = stateRunning -> server r = true).

(** The start numbers with which a run of effects launched servers. *)
Definition serve_tags (effects : list effect) : list Z :=
  omap (fun e => match e with
                 | ServeHTTP3 n => Some n
                 | ServeHTTP _ n => Some n
                 | _ => None
                 end) effects.

End Model.

(** A gate on port 10080 that is up, after its first start. *)
Definition demo_spec : @Spec unit unit string :=
  {| HTTP3 := false; Port := 10080; KeepAlive := true;
     KeepAliveTimeout := "60s"; MaxConnections := 10240; HTTPS := false;
     CertBase64 := ""; KeyBase64 := ""; CacheSize := 0;
     XForwardedFor := false; Tracing := None; IPFilter := None;
     Rules := ["/pipeline"%string] |}.

Definition demo_runtime : @runtime unit unit string :=
  {| superSpec := Some demo_spec; spec := Some demo_spec; server := true;
     server3 := false; muxRules := Some demo_spec; startNum := 1;
     state := stateRunning; err := errNil; limitListener := Some 10240 |}.

(** The same gate serving HTTP/3, and the gate moved to another port. *)
Definition demo_spec3 : @Spec unit unit string :=
  {| HTTP3 := true; Port := 10080; KeepAlive := true;
     KeepAliveTimeout := "60s"; MaxConnections := 10240; HTTPS := true;
     CertBase64 := "Y2VydA=="; KeyBase64 := "a2V5"; CacheSize := 0;
     XForwardedFor := false; Tracing := None; IPFilter := None;
     Rules := ["/pipeline"%string] |}.

Definition demo_spec_moved : @Spec unit unit string :=
  {| HTTP3 := false; Port := 10081; KeepAlive := true;
     KeepAliveTimeout := "60s"; MaxConnections := 10240; HTTPS := false;
     CertBase64 := ""; KeyBase64 := ""; CacheSize := 0;
     XForwardedFor := false; Tracing := None; IPFilter := None;
     Rules := ["/pipeline"%string] |}.

Definition demo_runtime3 : @runtime unit unit string :=
  {| superSpec := Some demo_spec3; spec := Some demo_spec3; server := true;
     server3 := true; muxRules := Some demo_spec3; startNum := 1;
     state := stateRunning; err := errNil; limitListener := None |}.

Definition demo_failed : @runtime unit unit string :=
  {| superSpec := Some demo_spec; spec := Some demo_spec; server := true;
     server3 := false; muxRules := Some demo_spec; startNum := 1;
     state := stateFailed; err := "address already in use";
     limitListener := None |}.

(** The gate after it was started with HTTP/3 and then reloaded to serve
    HTTP/1 and HTTP/2 on the same port: the HTTP/1-2 server runs, and
    [server3] still holds the HTTP/3 server that the reload closed. *)
Definition demo_stale : @runtime unit unit string :=
  (fsm (newRuntime demo_spec3)
       [(EvReload (Some demo_spec3), None);
        (EvReload (Some demo_spec), None)]).1.1.

End HttpServer.

(** * The UDP proxy session (udpproxy) *)

Module Udp.

(** [time.Duration] is an int64 count of nanoseconds. *)
Definition Nanosecond : Z := 1.
Definition Millisecond : Z := 1000000.
Definition Second : Z := 1000000000.

(** Modelled from the spec: the declaration of the UDPServer [Spec] struct is
    not among the sources; [getSession] reads these two fields, idle
    timeouts in milliseconds. *)
Record Spec := {
  UpstreamIdleTimeout : Z;
  DownstreamIdleTimeout : Z
}.

Record Packet := {
  Payload : list byte;
  Len : Z
}.

Record session := {
  upstreamAddr : string;
  downstreamAddr : string;
  downstreamIdleTimeout : Z;
  upstreamIdleTimeout : Z;
  writeBuf : list Packet;    (* the buffered channel, oldest first *)
  stopped : bool             (* stopChan is closed *)
}.

(** [make(chan *iobufferpool.Packet, 512)]. *)
Definition writeBufCap : nat := 512.

Definition newSession (downstreamAddr upstreamAddr : string)
           (downstreamIdleTimeout upstreamIdleTimeout : Z) : session :=
  {| upstreamAddr := upstreamAddr;
     downstreamAddr := downstreamAddr;
     downstreamIdleTimeout := downstreamIdleTimeout;
     upstreamIdleTimeout := upstreamIdleTimeout;
     writeBuf := [];
     stopped := false |}.

(** The session that [getSession] creates for a downstream address:
    [newSession(downstreamAddr, upstreamAddr, upstreamConn,
       time.Duration(r.spec.UpstreamIdleTimeout)*time.Millisecond,
       time.Duration(r.spec.DownstreamIdleTimeout)*time.Millisecond)]. *)
Definition createSession (spec : Spec) (downstreamAddr upstreamAddr : string)
  : session :=
  newSession downstreamAddr upstreamAddr
             (i64 (UpstreamIdleTimeout spec * Millisecond))
             (i64 (DownstreamIdleTimeout spec * Millisecond)).

(** [getSession]: the live session of the address if there is one, else a
    new one, stored in the table. [upstream] is the address that
    [getUpstreamConn] dialled, or its error. *)
Definition getSession (spec : Spec) (upstream : string + string)
           (sessions : gmap string session) (downstreamAddr : string)
  : gmap string session * (session + string) :=
  match sessions !! downstreamAddr with
  | Some s =>
      if negb (stopped s) then (sessions, inl s)
      else
        match upstream with
        | inr e => (sessions, inr e)
        | inl addr =>
            let s' := createSession spec downstreamAddr addr in
            (<[downstreamAddr := s']> sessions, inl s')
        end
  | None =>
      match upstream with
      | inr e => (sessions, inr e)
      | inl addr =>
          let s' := createSession spec downstreamAddr addr in
          (<[downstreamAddr := s']> sessions, inl s')
      end
  end.

(** The duration of the timer that [Write] arms when the channel is full. *)
Definition writeTimer (s : session) : Z :=
  if negb (upstreamIdleTimeout s =? 0)
  then i64 (upstreamIdleTimeout s * Millisecond)
  else 60 * Second.

(** Which case of the blocking [select] of [Write] fires first. *)
Inductive wake :=
| SlotFreed     (* the writer goroutine took the oldest packet *)
| StopClosed    (* stopChan was closed *)
| TimerFired.   (* the timer ran out *)

Record written := {
  ret : option string;     (* the returned error *)
  released : bool;         (* buf.Release() was called *)
  timer : option Z         (* the timer armed, if any *)
}.

Definition with_writeBuf (s : session) (b : list Packet) : session :=
  {| upstreamAddr := upstreamAddr s; downstreamAddr := downstreamAddr s;
     downstreamIdleTimeout := downstreamIdleTimeout s;
     upstreamIdleTimeout := upstreamIdleTimeout s;
     writeBuf := b; stopped := stopped s |}.

Definition Write (s : session) (buf : Packet) (w : wake) : session * written :=
  if (length (writeBuf s) <? writeBufCap)%nat then
    (with_writeBuf s (writeBuf s ++ [buf])%list,
     {| ret := None; released := false; timer := None |})
  else
    let t := writeTimer s in
    match w with
    | SlotFreed =>
        (with_writeBuf s (tail (writeBuf s) ++ [buf])%list,
         {| ret := None; released := false; timer := Some t |})
    | StopClosed =>
        (s, {| ret := None; released := true; timer := Some t |})
    | TimerFired =>
        (s, {| ret := Some "write data to channel timeout"%string;
               released := true; timer := Some t |})
    end.

Definition demo_packet : Packet :=
  {| Payload := [Byte.x68; Byte.x69]; Len := 2 |}.

(** A gate configured with an upstream idle timeout of one second and a
    downstream idle timeout of two seconds. *)
Definition demo_spec : Spec :=
  {| UpstreamIdleTimeout := 1000; DownstreamIdleTimeout := 2000 |}.

(** [Close]: the compare-and-swap on [stopped] lets one caller close
    [stopChan]; the boolean tells whether this call closed it. *)
Definition Close (s : session) : session * bool :=
  if stopped s then (s, false)
  else ({| upstreamAddr := upstreamAddr s; downstreamAddr := downstreamAddr s;
           downstreamIdleTimeout := downstreamIdleTimeout s;
           upstreamIdleTimeout := upstreamIdleTimeout s;
           writeBuf := writeBuf s; stopped := true |}, true).

Definition isClosed (s : session) : bool := stopped s.

(** [Close] on the session that the table holds for an address (the table
    holds pointers). *)
Definition closeSession (key : string) (sessions : gmap string session)
  : gmap string session :=
  alter (fun s => (Close s).1) key sessions.

(** [cleanup]: [for k, s := range r.sessions { if s.IsClosed() {
    delete(r.sessions, k) } }]. *)
Definition cleanup (sessions : gmap string session) : gmap string session :=
  filter (fun kv => stopped kv.2 = false) sessions.

(** A connection handle; handles are never nil. *)
Definition Conn := Z.

(** [connPool]; the receiver may be nil, and [close] sets the map to nil. *)
Record connPool := { pool : option (gmap string Conn) }.

Definition newConnPool : option connPool := Some {| pool := Some ∅ |}.

Definition get (c : option connPool) (addr : string) : option Conn :=
  match c with
  | None => None
  | Some c =>
      match pool c with
      | Some m => m !! addr
      | None => None
      end
  end.

(** [put]; the result is [None] when the write hits a nil map. *)
Definition put (c : option connPool) (addr : string) (conn : Conn)
  : option (option connPool) :=
  match c with
  | None => Some None
  | Some c =>
      match pool c with
      | Some m => Some (Some {| pool := Some (<[addr := conn]> m) |})
      | None => None
      end
  end.

(** [close]: the pool afterwards and the connections it closed. *)
Definition close (c : option connPool) : option connPool * list Conn :=
  match c with
  | None => (None, [])
  | Some c =>
      (Some {| pool := None |},
       match pool c with
       | Some m => (map_to_list m).*2
       | None => []
       end)
  end.

(** What the load balancer and the network answer to [getUpstreamConn]:
    [r.pool.Next], [net.ResolveUDPAddr] and [net.DialUDP]. *)
Record network := {
  Next : option string;
  Resolve : string -> bool;
  Dial : string -> option Conn
}.

Inductive upstream :=
| Got (conn : Conn) (addr : string)
| NoServer                 (* "can not get upstream addr ..." *)
| NoAddr (addr : string)   (* "parse upstream addr(%s) to udp addr failed" *)
| NoDial (addr : string)   (* "dial to upstream addr(%s) failed" *)
| NilMap.                  (* the write to a closed pool panics *)

(** [getUpstreamConn]: the pool afterwards, the outcome, and whether a
    connection was dialled. *)
Definition getUpstreamConn (net : network) (c : option connPool)
  : option connPool * upstream * bool :=
  match Next net with
  | None => (c, NoServer, false)
  | Some addr =>
      match (match c with Some _ => get c addr | None => None end) with
      | Some conn => (c, Got conn addr, false)
      | None =>
          if negb (Resolve net addr) then (c, NoAddr addr, false)
          else
            match Dial net addr with
            | None => (c, NoDial addr, false)
            | Some conn =>
                match c with
                | None => (None, Got conn addr, true)
                | Some _ =>
                    match put c addr conn with
                    | Some c' => (c', Got conn addr, true)
                    | None => (c, NilMap, true)
                    end
                end
            end
      end
  end.

End Udp.

(** * The HeaderToJSON filter (headertojson.go) *)

Module HeaderToJSON.

Local Open Scope string_scope.

Import PrimFloat.

(** A Go value as [json.Unmarshal] stores it in an [interface{}] and as
    [json.Marshal] is given it: [nil], [bool], [float64], [string],
    [[]interface{}] and [map[string]interface{}]. Every JSON number is a
    [float64]: the literal is rounded to the nearest one when it is decoded
    (9007199254740993 is read as 9007199254740992), and what is written back
    is the text of that [float64], not the literal that was read. Strings are
    text in UTF-8. *)
#[local] Set Warnings "-register-all".
Inductive json :=
| JNull
| JBool (b : bool)
| JNumber (f : float)
| JString (s : string)
| JArray (l : list json)
| JObject (m : gmap string json).

(** A request body, by what its bytes are to the JSON decoder. Bodies that
    decode to the same value are one document: the text of a body (spacing,
    order of the fields, spelling of a number) is not kept. *)
Inductive document :=
| Empty                (* no bytes *)
| Doc (v : json)       (* bytes that [json.Unmarshal] decodes to [v];
                          what [json.Marshal] writes for [v] *)
| Malformed.           (* anything else: bytes that [json.Unmarshal] rejects
                          whatever it decodes into *)

(** The body stream of a request, by what [io.ReadAll] gets from it. Reading
    consumes the stream. *)
Inductive reader :=
| Reads (b : document)       (* the bytes [b]; the stream is then at its end *)
| ReadFails (rest : reader). (* an error; the stream is left as [rest] *)

(** [io.ReadAll]: what was read ([None] for an error), and the stream as it
    is left. A stream at its end yields no bytes. *)
Definition ReadAll (r : reader) : option document * reader :=
  match r with
  | Reads b => (Some b, Reads Empty)
  | ReadFails rest => (None, rest)
  end.

Inductive jsonType := jsonInt | jsonFloat | jsonString | jsonBool | jsonNull.

(** Modelled from the spec: the declaration of the filter's [Spec] is not
    among the sources; an entry has the fields that [init] reads ([Header],
    [JSON]) and the [Type] that the filter's test sets. *)
Record HeaderMap := {
  Header : string;
  JSON : string;
  Type_ : jsonType
}.

Record Spec := { spec_HeaderMap : list HeaderMap }.

Record HeaderToJSON := {
  spec : Spec;
  headerMap : gmap string string
}.

Definition resultJSONEncodeDecodeErr : string := "jsonEncodeDecodeErr".
Definition resultBodyReadErr : string := "bodyReadErr".

(** ** net/http: canonical header keys and [Header.Get] *)

Definition is_lower (c : ascii) : bool :=
  (97 <=? nat_of_ascii c)%nat && (nat_of_ascii c <=? 122)%nat.
Definition is_upper (c : ascii) : bool :=
  (65 <=? nat_of_ascii c)%nat && (nat_of_ascii c <=? 90)%nat.
Definition is_digit (c : ascii) : bool :=
  (48 <=? nat_of_ascii c)%nat && (nat_of_ascii c <=? 57)%nat.

Definition to_upper (c : ascii) : ascii :=
  if is_lower c then ascii_of_nat (nat_of_ascii c - 32) else c.
Definition to_lower (c : ascii) : ascii :=
  if is_upper c then ascii_of_nat (nat_of_ascii c + 32) else c.

(** The token characters that a header field name may hold. *)
Definition validHeaderFieldByte (c : ascii) : bool :=
  is_lower c || is_upper c || is_digit c
  || existsb (Ascii.eqb c) (list_ascii_of_string "!#$%&'*+-.^_`|~").

Fixpoint canonical (upper : bool) (l : list ascii) : list ascii :=
  match l with
  | [] => []
  | c :: l' =>
      (if upper then to_upper c else to_lower c)
        :: canonical (Ascii.eqb c "-"%char) l'
  end.

Definition CanonicalHeaderKey (s : string) : string :=
  let l := list_ascii_of_string s in
  if forallb validHeaderFieldByte l
  then string_of_list_ascii (canonical true l)
  else s.

Record request := {
  header : gmap string (list string);
  body : reader
}.

Definition Add (h : gmap string (list string)) (key value : string)
  : gmap string (list string) :=
  let k := CanonicalHeaderKey key in
  <[k := (default [] (h !! k) ++ [value])%list]> h.

Definition Get (h : gmap string (list string)) (key : string) : string :=
  match h !! CanonicalHeaderKey key with
  | Some (v :: _) => v
  | _ => ""
  end.

(** ** The filter *)

Definition init (s : Spec) : HeaderToJSON :=
  {| spec := s;
     headerMap :=
       foldl (fun m hm => <[CanonicalHeaderKey (Header hm) := JSON hm]> m)
             ∅ (spec_HeaderMap s) |}.

(** [decodeJSON]: the body unmarshalled into a [map[string]interface{}]
    made empty beforehand; the outer [None] is a decoding error. The map
    holds the decoded values, every number as a [float64]. A JSON [null]
    sets the map to nil (the inner [None]), as encoding/json documents it; an
    input that ends in [io.EOF] leaves the map as made. *)
Definition decodeJSON (b : document) : option (option (gmap string json)) :=
  match b with
  | Doc (JObject m) => Some (Some m)
  | Doc JNull => Some None
  | Empty => Some (Some ∅)
  | _ => None
  end.

(** [decodeArrayJSON]: the body unmarshalled into a
    [[]map[string]interface{}], every number as a [float64]; a [null]
    element is a nil map, a [null] document a nil slice. *)
Definition decodeElement (v : json) : option (option (gmap string json)) :=
  match v with
  | JObject m => Some (Some m)
  | JNull => Some None
  | _ => None
  end.

Definition decodeArrayJSON (b : document)
  : option (option (list (option (gmap string json)))) :=
  match b with
  | Doc (JArray l) => Some <$> mapM decodeElement l
  | Doc JNull => Some None
  | Empty => Some (Some [])
  | _ => None
  end.

(** What a run of the filter does: it returns a result, or it panics. *)
Inductive outcome :=
| Returned (result : string) (req : request)
| Panicked.

Definition SetBody (req : request) (b : document) : request :=
  {| header := header req; body := Reads b |}.

(** [for k, v := range headerMap { bodyMap[k] = v }]. *)
Definition merge (bodyMap headerMap : gmap string json) : gmap string json :=
  headerMap ∪ bodyMap.

(** The values that [json.Marshal] encodes: of the values of [json], all
    but those that hold a NaN or an infinity. *)
Fixpoint supported (v : json) : bool :=
  match v with
  | JNumber f => is_finite f
  | JArray l => forallb supported l
  | JObject m => map_fold (fun _ x acc => supported x && acc) true m
  | _ => true
  end.

(** [json.Marshal]; [None] is its error. *)
Definition Marshal (v : json) : option document :=
  if supported v then Some (Doc v) else None.

(** Writing to a nil map panics; [headerMap] is not empty when the two
    functions below run. [req] is the request as [handle] has left it. *)
Definition handleBodyMap (req : request) (bodyMap : option (gmap string json))
           (headerMap : gmap string json) : outcome :=
  match bodyMap with
  | Some m =>
      match Marshal (JObject (merge m headerMap)) with
      | Some body => Returned "" (SetBody req body)
      | None => Returned resultJSONEncodeDecodeErr req
      end
  | None => Panicked
  end.

Definition handleBodyArray (req : request)
           (bodyArray : option (list (option (gmap string json))))
           (headerMap : gmap string json) : outcome :=
  match bodyArray with
  | None => Returned "" (SetBody req (Doc JNull))
  | Some elements =>
      match mapM (fun m => m) elements with
      | Some maps =>
          match Marshal (JArray (map (fun m => JObject (merge m headerMap))
                                     maps)) with
          | Some body => Returned "" (SetBody req body)
          | None => Returned resultJSONEncodeDecodeErr req
          end
      | None => Panicked
      end
  end.

(** The first loop of [handle]: the JSON field of every mapped header that
    the request carries, with the header's value, a string. (When two
    headers are mapped to one JSON field, Go's map order decides which value
    stays; here the order of [map_fold] does.) *)
Definition collect (h : HeaderToJSON) (req : request) : gmap string json :=
  map_fold (fun hdr js acc =>
              let value := Get (header req) hdr in
              if String.eqb value "" then acc else <[js := JString value]> acc)
           ∅ (headerMap h).

(** [handle]. Once [io.ReadAll] has run, the request is the one whose body
    stream has been read: it stays so on every path that does not call
    [SetBody]. *)
Definition handle (h : HeaderToJSON) (req : request) : outcome :=
  let headerMap := collect h req in
  if decide (size headerMap = 0%nat) then Returned "" req
  else
    let read := {| header := header req; body := (ReadAll (body req)).2 |} in
    match (ReadAll (body req)).1 with
    | None => Returned resultBodyReadErr read
    | Some Empty => handleBodyMap read (Some ∅) headerMap
    | Some reqBody =>
        match decodeJSON reqBody with
        | Some bodyMap => handleBodyMap read bodyMap headerMap
        | None =>
            match decodeArrayJSON reqBody with
            | Some bodyArray => handleBodyArray read bodyArray headerMap
            | None => Returned resultJSONEncodeDecodeErr read
            end
        end
    end.

(** [Handle]: the result goes through [ctx.CallNextHandler]. *)
Definition Handle (callNextHandler : string -> string) (h : HeaderToJSON)
           (req : request) : outcome :=
  match handle h req with
  | Returned result req' => Returned (callNextHandler result) req'
  | Panicked => Panicked
  end.

(** The filter and the request of the scenario (and of the filter's test). *)
Definition test_spec : Spec :=
  {| spec_HeaderMap :=
       [ {| Header := "x-int"; JSON := "int-value"; Type_ := jsonInt |};
         {| Header := "x-float"; JSON := "float-value"; Type_ := jsonFloat |};
         {| Header := "x-string"; JSON := "string-value"; Type_ := jsonString |};
         {| Header := "x-bool"; JSON := "bool-value"; Type_ := jsonBool |};
         {| Header := "x-null"; JSON := "null-value"; Type_ := jsonNull |} ] |}.

Definition test_body : gmap string json :=
  <["topic" := JString "log"]> (<["id" := JString "abc123"]> ∅).

Definition test_request : request :=
  {| header :=
       Add (Add (Add (Add (Add ∅ "x-int" "123") "x-float" "123.0")
                     "x-string" "string") "x-bool" "true") "x-null" "null";
     body := Reads (Doc (JObject test_body)) |}.

(** The body that the scenario expects. *)
Definition expected_body : gmap string json :=
  <["topic" := JString "log"]>
  (<["id" := JString "abc123"]>
  (<["int-value" := JNumber 123%float]>
  (<["float-value" := JNumber 123%float]>
  (<["string-value" := JString "string"]>
  (<["bool-value" := JBool true]>
  (<["null-value" := JNull]> ∅)))))).

(** The body that the filter writes. *)
Definition written_body : gmap string json :=
  <["topic" := JString "log"]>
  (<["id" := JString "abc123"]>
  (<["int-value" := JString "123"]>
  (<["float-value" := JString "123.0"]>
  (<["string-value" := JString "string"]>
  (<["bool-value" := JString "true"]>
  (<["null-value" := JString "null"]> ∅)))))).

(** [Results]: the results that the filter declares besides "". *)
Definition Results : list string :=
  [resultJSONEncodeDecodeErr; resultBodyReadErr].

(** The request carries a value for header [hdr], which the filter maps to
    the JSON field [js]. *)
Definition present (h : HeaderToJSON) (req : request) (hdr js : string) : Prop :=
  headerMap h !! hdr = Some js ∧ Get (header req) hdr ≠ "".

(** [b] is the object [m] with the mapped headers of the request written
    over it: a field of [b] is the string value of a present header mapped
    to it, or else the field of [m]; every such header has its field; and
    the fields of [m] that no present header is mapped to are kept. [m] and
    [b] are decoded values: a kept number is the same [float64], whatever
    its literal was. *)
Definition merged (h : HeaderToJSON) (req : request)
           (m b : gmap string json) : Prop :=
  (∀ k v, b !! k = Some v ->
     (∃ hdr, present h req hdr k ∧ v = JString (Get (header req) hdr))
     ∨ (m !! k = Some v ∧ ∀ hdr, ¬ present h req hdr k))
  ∧ (∀ hdr k, present h req hdr k -> is_Some (b !! k))
  ∧ (∀ k v, m !! k = Some v -> (∀ hdr, ¬ present h req hdr k) ->
            b !! k = Some v).

(** The request after [io.ReadAll] has read its body and nothing has set a
    new one. *)
Definition consumed (req : request) : request :=
  {| header := header req; body := (ReadAll (body req)).2 |}.

(** A JSON value that is neither an object nor [null]. *)
Definition no_object (v : json) : Prop :=
  match v with
  | JObject _ | JNull => False
  | _ => True
  end.

End HeaderToJSON.

(** * HTTP statistics (httpstat.go) *)

Module HttpStat.

(** The integer aggregates of [HTTPStat]; the rates, the duration sampler
    and the code counter are kept by other packages. All fields are uint64. *)
Record HTTPStat := {
  count : Z;
  errCount : Z;
  total : Z;
  min : Z;
  mean : Z;
  max : Z;
  reqSize : Z;
  respSize : Z
}.

Record Metric := {
  StatusCode : Z;
  Duration : Z;    (* time.Duration: int64 nanoseconds *)
  ReqSize : Z;
  RespSize : Z
}.

Definition isErr (m : Metric) : bool := 400 <=? StatusCode m.

Definition New : HTTPStat :=
  {| count := 0; errCount := 0; total := 0; min := 0; mean := 0; max := 0;
     reqSize := 0; respSize := 0 |}.

(** [Duration.Milliseconds]: integer division, truncating towards zero. *)
Definition Milliseconds (d : Z) : Z := Z.quot d 1000000.

(** [uint64(m.Duration.Milliseconds())]. *)
Definition recorded (m : Metric) : Z := u64 (Milliseconds (Duration m)).

(** [Stat]; [None] is the run-time panic of [hs.total / hs.count] when the
    count has wrapped to zero. *)
Definition Stat (hs : HTTPStat) (m : Metric) : option HTTPStat :=
  let count' := u64 (count hs + 1) in
  let errCount' := if isErr m then u64 (errCount hs + 1) else errCount hs in
  let duration := recorded m in
  let total' := u64 (total hs + duration) in
  if count' =? 1 then
    Some {| count := count'; errCount := errCount'; total := total';
            min := duration; mean := duration; max := duration;
            reqSize := u64 (reqSize hs + ReqSize m);
            respSize := u64 (respSize hs + RespSize m) |}
  else if count' =? 0 then None
  else
    Some {| count := count'; errCount := errCount'; total := total';
            min := if duration <? min hs then duration else min hs;
            mean := total' / count';
            max := if max hs <? duration then duration else max hs;
            reqSize := u64 (reqSize hs + ReqSize m);
            respSize := u64 (respSize hs + RespSize m) |}.

(** A sequence of [Stat] calls. *)
Fixpoint StatAll (hs : HTTPStat) (ms : list Metric) : option HTTPStat :=
  match ms with
  | [] => Some hs
  | m :: ms' =>
      match Stat hs m with
      | Some hs' => StatAll hs' ms'
      | None => None
      end
  end.

(** The sum of the recorded durations. *)
Definition sum (ds : list Z) : Z := foldr Z.add 0 ds.


(** A request whose measured duration is minus one millisecond. *)
Definition backwards : Metric :=
  {| StatusCode := 200; Duration := -1000000; ReqSize := 0; RespSize := 0 |}.

(** The number of metrics that [isErr] counts as errors. *)
Definition errors (ms : list Metric) : Z :=
  Z.of_nat (length (List.filter isErr ms)).

End HttpStat.

(** * Properties *)

Module FSMFacts.
Import FSM.
Local Open Scope string_scope.

(** The specification lists the last two rows in the other order; the rows
    have distinct (from, event) keys, so the lookups agree. *)
Lemma table_rows (s : State) (e : Event) :
  spec_target (map row_of table) s e = spec_target spec_table s e.
Proof.
  cbn [map table row_of t_From t_Event t_To spec_table spec_target].
  unfold InitialState, ActiveState, InactiveState, FailedState, DesctroyState,
    UpdateEvent, DeleteEvent, StopEvent, StartEvent, PendingEvent, ErrorEvent,
    ReadyEvent.
  repeat (match goal with
          | |- context [if ?c then _ else _] => destruct c
          end; try reflexivity).
Qed.

(** Grouping by event keeps, for each event, its rows in table order. *)
Lemma foldl_add_transition (e : Event) (l : list transition)
      (m : gmap Event (list transition)) :
  default [] (foldl add_transition m l !! e)
  = (default [] (m !! e) ++ rows_for e l)%list.
Proof.
  revert m. induction l as [|t l IH]; intros m; simpl.
  - by rewrite app_nil_r.
  - rewrite IH. unfold add_transition at 1.
    destruct (String.eqb_spec e (t_Event t)) as [->|Hne].
    + rewrite lookup_insert_eq. simpl. by rewrite <- app_assoc.
    + rewrite lookup_insert_ne by congruence. done.
Qed.

Lemma transitions_lookup (e : Event) :
  default [] (transitions !! e) = rows_for e table.
Proof. unfold transitions. by rewrite foldl_add_transition, lookup_empty. Qed.

Lemma scan_rows_for (s : State) (e : Event) (l : list transition) :
  scan s (rows_for e l) = spec_target (map row_of l) s e.
Proof.
  induction l as [|t l IH]; simpl; [done|].
  destruct (String.eqb e (t_Event t)); simpl.
  - destruct (String.eqb s (t_From t)); simpl; [done | exact IH].
  - rewrite andb_false_r. exact IH.
Qed.

Lemma lookup_scan (s : State) (e : Event) :
  match transitions !! e with
  | Some t => scan s t
  | None => None
  end = spec_target spec_table s e.
Proof.
  rewrite <- table_rows, <- scan_rows_for, <- transitions_lookup.
  by destruct (transitions !! e).
Qed.

Lemma spec_target_Some rows s e to :
  spec_target rows s e = Some to -> In (s, e, to) rows.
Proof.
  induction rows as [|[[f ev] t'] rows IH]; simpl; [discriminate|].
  destruct (String.eqb_spec s f) as [->|?]; simpl.
  - destruct (String.eqb_spec e ev) as [->|?]; simpl.
    + intros [= ->]. by left.
    + intros H. right. auto.
  - intros H. right. auto.
Qed.

Lemma spec_events_valid :
  Forall (fun r => r.1.2 ∈ validEvent) spec_table.
Proof.
  apply Forall_forall. intros r Hr.
  apply (bool_decide_unpack _).
  revert r Hr. apply Forall_forall.
  repeat constructor.
Qed.

Lemma spec_target_event_valid s e to :
  spec_target spec_table s e = Some to -> e ∈ validEvent.
Proof.
  intros H%spec_target_Some.
  pose proof spec_events_valid as Hall.
  rewrite Forall_forall in Hall. apply list_elem_of_In in H. exact (Hall _ H).
Qed.

Lemma spec_target_destroyed e : spec_target spec_table DesctroyState e = None.
Proof.
  destruct (spec_target spec_table DesctroyState e) as [to|] eqn:H; [|done].
  apply spec_target_Some in H. exfalso.
  unfold spec_table in H. simpl in H.
  repeat (destruct H as [H|H]; [discriminate H|]). exact H.
Qed.

Lemma Next_spec (s : State) (e : Event) :
  Next {| currentState := s |} e =
  if decide (e ∈ validEvent) then
    match spec_target spec_table s e with
    | Some to => ({| currentState := to |}, None)
    | None => ({| currentState := s |},
               Some ("invalid event: " +:+ e +:+ ", currentState: " +:+ s))
    end
  else ({| currentState := s |}, Some ("unknown event: " +:+ e)).
Proof. unfold Next. cbn [currentState]. by rewrite lookup_scan. Qed.

(** C1. From any state [s] and for any event [e], [Next] moves the machine to
    the target that the table of section 4.7 gives for [(s, e)] and returns no
    error; when the table has no row for [(s, e)], or [e] is not one of the
    known events, [Next] returns an error and leaves the current state as it
    was; from the destroyed state every event is an error. *)
Theorem Next_follows_table (s : State) (e : Event) :
  let r := Next {| currentState := s |} e in
  match spec_target spec_table s e with
  | Some to => r = ({| currentState := to |}, None)
  | None => is_error r ∧ r.1 = {| currentState := s |}
  end
  ∧ (e ∉ validEvent -> is_error r ∧ r.1 = {| currentState := s |})
  ∧ (s = DesctroyState -> is_error r ∧ r.1 = {| currentState := s |}).
Proof.
  intros r. subst r. rewrite Next_spec. split; [|split].
  - destruct (spec_target spec_table s e) as [to|] eqn:Hrow.
    + rewrite decide_True by (eapply spec_target_event_valid; eauto). done.
    + case_decide; (split; [eexists; reflexivity | reflexivity]).
  - intros Hunk. rewrite decide_False by done.
    split; [eexists; reflexivity | reflexivity].
  - intros ->. rewrite spec_target_destroyed.
    case_decide; (split; [eexists; reflexivity | reflexivity]).
Qed.

Lemma Next_follows_table_witness :
  let r := Next {| currentState := DesctroyState |} "bogus" in
  ("bogus" ∉ validEvent) ∧ (is_error r ∧ r.1 = {| currentState := DesctroyState |}).
Proof.
  assert (Hunk : "bogus" ∉ validEvent)
    by (apply (bool_decide_unpack _); vm_compute; exact I).
  split; [exact Hunk|].
  exact (proj1 (proj2 (Next_follows_table DesctroyState "bogus")) Hunk).
Defined.

(** The twenty rows, run one by one. *)
Example Next_rows :
  map (fun r => Next {| currentState := r.1.1 |} r.1.2) spec_table
  = map (fun r => ({| currentState := r.2 |}, None)) spec_table.
Proof. vm_compute. reflexivity. Qed.

Example Next_create_initial :
  Next {| currentState := InitialState |} CreateEvent
  = ({| currentState := InitialState |},
     Some "invalid event: create, currentState: initial").
Proof. vm_compute. reflexivity. Qed.

Lemma spec_targets_valid :
  Forall (fun r => r.2 ∈ validState) spec_table.
Proof.
  apply Forall_forall. intros r Hr.
  apply (bool_decide_unpack _).
  revert r Hr. apply Forall_forall.
  repeat constructor.
Qed.

Lemma Next_keeps_valid (s : State) (e : Event) :
  s ∈ validState -> currentState (Next {| currentState := s |} e).1 ∈ validState.
Proof.
  intros Hs. rewrite Next_spec. case_decide; [|exact Hs].
  destruct (spec_target spec_table s e) as [to|] eqn:Hrow; [|exact Hs].
  apply spec_target_Some, list_elem_of_In in Hrow.
  pose proof spec_targets_valid as Hall. rewrite Forall_forall in Hall.
  exact (Hall _ Hrow).
Qed.

(** X1. A machine that starts in a valid state is in a valid state after any
    sequence of events, accepted or rejected. *)
Theorem runEvents_valid (s : State) (events : list Event) :
  s ∈ validState ->
  currentState (runEvents {| currentState := s |} events) ∈ validState.
Proof.
  revert s. induction events as [|e events IH]; intros s Hs; [exact Hs|].
  unfold runEvents. cbn [foldl]. fold (runEvents (Next {| currentState := s |} e).1 events).
  destruct (Next {| currentState := s |} e).1 as [s'] eqn:Hn.
  apply IH. pose proof (Next_keeps_valid s e Hs) as Hv. by rewrite Hn in Hv.
Qed.

Lemma runEvents_valid_witness :
  currentState (runEvents {| currentState := InitialState |}
                  ["ready"; "bogus"; "stop"; "create"; "update"]) ∈ validState.
Proof.
  apply runEvents_valid. apply (bool_decide_unpack _). vm_compute. exact I.
Defined.

Lemma runEvents_destroyed (events : list Event) :
  runEvents {| currentState := DesctroyState |} events
  = {| currentState := DesctroyState |}.
Proof.
  induction events as [|e events IH]; [reflexivity|].
  unfold runEvents. cbn [foldl].
  rewrite Next_spec, spec_target_destroyed.
  case_decide; exact IH.
Qed.

(** X2. Every valid state other than the destroyed one reaches the destroyed
    state in at most two events, and once destroyed the machine stays so
    whatever events follow. *)
Theorem destroyed_reachable_and_final (s : State) :
  s ∈ validState ->
  (∃ events, (length events <= 2)%nat
             ∧ runEvents {| currentState := s |} events
               = {| currentState := DesctroyState |})
  ∧ ∀ events events',
      runEvents {| currentState := s |} events
      = {| currentState := DesctroyState |} ->
      runEvents {| currentState := s |} (events ++ events')
      = {| currentState := DesctroyState |}.
Proof.
  intros Hs. split.
  - unfold validState in Hs. set_unfold in Hs.
    destruct Hs as [[[[Hs|Hs]|Hs]|Hs]|Hs]; subst s.
    + exists ["delete"]. split; [simpl; lia | vm_compute; reflexivity].
    + exists ["stop"; "delete"]. split; [simpl; lia | vm_compute; reflexivity].
    + exists ["delete"]. split; [simpl; lia | vm_compute; reflexivity].
    + exists ["delete"]. split; [simpl; lia | vm_compute; reflexivity].
    + exists []. split; [simpl; lia | reflexivity].
  - intros events events' Hd. unfold runEvents in *.
    rewrite foldl_app, Hd. apply runEvents_destroyed.
Qed.

Lemma destroyed_reachable_and_final_witness :
  ∃ events, (length events <= 2)%nat
            ∧ runEvents {| currentState := ActiveState |} events
              = {| currentState := DesctroyState |}.
Proof.
  apply (destroyed_reachable_and_final ActiveState).
  apply (bool_decide_unpack _). vm_compute. exact I.
Defined.

(** X3. No state accepts the create event, although it is a known event:
    [Next] answers it with the "invalid event" error everywhere. The start
    event is accepted in the inactive state only, and leaves it inactive. *)
Theorem create_rejected_start_inert (s : State) :
  Next {| currentState := s |} CreateEvent
  = ({| currentState := s |},
     Some ("invalid event: create, currentState: " +:+ s))
  ∧ (Next {| currentState := s |} StartEvent).1 = {| currentState := s |}
  ∧ ((Next {| currentState := s |} StartEvent).2 = None ↔ s = InactiveState).
Proof.
  assert (Hc : spec_target spec_table s CreateEvent = None).
  { destruct (spec_target spec_table s CreateEvent) as [to|] eqn:H; [|done].
    apply spec_target_Some in H. exfalso. simpl in H.
    repeat (destruct H as [H|H]; [discriminate H|]). exact H. }
  assert (Hs : spec_target spec_table s StartEvent
               = if String.eqb s InactiveState then Some InactiveState else None).
  { cbn [spec_table spec_target]. unfold StartEvent, InactiveState.
    cbn [String.eqb Ascii.eqb Bool.eqb andb].
    rewrite ?andb_false_r. rewrite andb_true_r. reflexivity. }
  rewrite !Next_spec, Hc, Hs.
  rewrite !decide_True by (apply (bool_decide_unpack _); vm_compute; exact I).
  split; [reflexivity|].
  destruct (String.eqb_spec s InactiveState) as [->|Hne]; cbn [fst snd].
  - split; [reflexivity|]. split; reflexivity.
  - split; [reflexivity|]. split; [discriminate | intros; contradiction].
Qed.

End FSMFacts.

Module Base64Facts.
Import Base64.
Local Open Scope N_scope.

Lemma enc_ok_all : forallb enc_ok (map N.of_nat (seq 0 64)) = true.
Proof. vm_compute. reflexivity. Qed.

Lemma enc_facts n :
  n < 64 -> dec (enc n) = Some n ∧ Ascii.eqb (enc n) pad = false
            ∧ is_newline (enc n) = false.
Proof.
  intros Hn. pose proof enc_ok_all as Hall.
  rewrite forallb_forall in Hall.
  assert (Hin : In n (map N.of_nat (seq 0 64))).
  { apply in_map_iff. exists (N.to_nat n). split; [apply N2Nat.id|].
    apply in_seq. lia. }
  specialize (Hall n Hin). unfold enc_ok in Hall.
  apply andb_true_iff in Hall as [Hall Hnl].
  apply andb_true_iff in Hall as [Hdec Hpad].
  apply negb_true_iff in Hnl, Hpad.
  destruct (dec (enc n)) as [m|]; [|discriminate].
  apply N.eqb_eq in Hdec. subst m. auto.
Qed.

Lemma byte_of_to_N b : byte_of (Byte.to_N b) = b.
Proof.
  unfold byte_of. pose proof (Byte.to_N_bounded b) as Hb.
  rewrite N.mod_small by lia. by rewrite Byte.of_to_N.
Qed.


(** The 6-bit digits of one, two and three bytes. *)
Lemma digits (a : N) (k : N) :
  k ≠ 0 -> a = k * (a / k) + a mod k ∧ a mod k < k.
Proof. intros Hk. split; [apply N.div_mod; exact Hk | by apply N.mod_lt]. Qed.

Lemma split3 a b c :
  a < 256 -> b < 256 -> c < 256 ->
  let n := a * 65536 + b * 256 + c in
  let n' := ((n / 262144 * 64 + n / 4096 mod 64) * 64 + n / 64 mod 64) * 64
            + n mod 64 in
  n / 262144 < 64 ∧ n / 4096 mod 64 < 64 ∧ n / 64 mod 64 < 64 ∧ n mod 64 < 64
  ∧ (n' / 65536) mod 256 = a ∧ (n' / 256) mod 256 = b ∧ n' mod 256 = c.
Proof.
  intros Ha Hb Hc n n'.
  destruct (digits a 4) as [Ea Ha0]; [done|].
  destruct (digits b 16) as [Eb Hb0]; [done|].
  destruct (digits c 64) as [Ec Hc0]; [done|].
  set (a1 := a / 4) in *. set (a0 := a mod 4) in *.
  set (b1 := b / 16) in *. set (b0 := b mod 16) in *.
  set (c1 := c / 64) in *. set (c0 := c mod 64) in *.
  assert (Ha1 : a1 < 64) by lia. assert (Hb1 : b1 < 16) by lia.
  assert (Hc1 : c1 < 4) by lia.
  assert (Hx : n / 262144 = a1).
  { symmetry. apply (N.div_unique n 262144 a1
                       ((a0 * 16 + b1) * 4096 + (b0 * 4 + c1) * 64 + c0));
      subst n; lia. }
  assert (Hy : n / 4096 mod 64 = a0 * 16 + b1).
  { assert (Hq : n / 4096 = a1 * 64 + (a0 * 16 + b1)).
    { symmetry. apply (N.div_unique n 4096 _ ((b0 * 4 + c1) * 64 + c0));
        subst n; lia. }
    rewrite Hq. symmetry. apply (N.mod_unique _ 64 a1); lia. }
  assert (Hz : n / 64 mod 64 = b0 * 4 + c1).
  { assert (Hq : n / 64 = (a1 * 64 + (a0 * 16 + b1)) * 64 + (b0 * 4 + c1)).
    { symmetry. apply (N.div_unique n 64 _ c0); subst n; lia. }
    rewrite Hq. symmetry.
    apply (N.mod_unique _ 64 (a1 * 64 + (a0 * 16 + b1))); lia. }
  assert (Hw : n mod 64 = c0).
  { symmetry.
    apply (N.mod_unique n 64
             ((a1 * 64 + (a0 * 16 + b1)) * 64 + (b0 * 4 + c1))); subst n; lia. }
  assert (Hn' : n' = n) by (subst n' n; rewrite Hx, Hy, Hz, Hw; lia).
  rewrite Hn'. rewrite Hx, Hy, Hz, Hw.
  split; [lia|]. split; [lia|]. split; [lia|]. split; [lia|].
  assert (H1 : n / 65536 = a).
  { symmetry. apply (N.div_unique n 65536 a (b * 256 + c)); subst n; lia. }
  assert (H2 : n / 256 = a * 256 + b).
  { symmetry. apply (N.div_unique n 256 _ c); subst n; lia. }
  rewrite H1, H2. split; [apply N.mod_small; lia|]. split.
  - symmetry. apply (N.mod_unique _ 256 a); lia.
  - symmetry. apply (N.mod_unique n 256 (a * 256 + b)); subst n; lia.
Qed.

Lemma split2 a b :
  a < 256 -> b < 256 ->
  let n := a * 65536 + b * 256 in
  let n' := (n / 262144 * 64 + n / 4096 mod 64) * 64 + n / 64 mod 64 in
  n / 262144 < 64 ∧ n / 4096 mod 64 < 64 ∧ n / 64 mod 64 < 64
  ∧ (n' / 1024) mod 256 = a ∧ (n' / 4) mod 256 = b.
Proof.
  intros Ha Hb n n'.
  destruct (split3 a b 0 Ha Hb) as (Hx & Hy & Hz & _ & _); [lia|].
  cbv zeta in Hx, Hy, Hz. rewrite N.add_0_r in Hx, Hy, Hz.
  fold n in Hx, Hy, Hz. split; [exact Hx|]. split; [exact Hy|]. split; [exact Hz|].
  destruct (digits a 4) as [Ea Ha0]; [done|].
  destruct (digits b 16) as [Eb Hb0]; [done|].
  set (a1 := a / 4) in *. set (a0 := a mod 4) in *.
  set (b1 := b / 16) in *. set (b0 := b mod 16) in *.
  assert (Hx' : n / 262144 = a1).
  { symmetry. apply (N.div_unique n 262144 a1 ((a0 * 16 + b1) * 4096 + b0 * 4 * 64));
      subst n; lia. }
  assert (Hy' : n / 4096 mod 64 = a0 * 16 + b1).
  { assert (Hq : n / 4096 = a1 * 64 + (a0 * 16 + b1)).
    { symmetry. apply (N.div_unique n 4096 _ (b0 * 4 * 64)); subst n; lia. }
    rewrite Hq. symmetry. apply (N.mod_unique _ 64 a1); lia. }
  assert (Hz' : n / 64 mod 64 = b0 * 4).
  { assert (Hq : n / 64 = (a1 * 64 + (a0 * 16 + b1)) * 64 + b0 * 4).
    { symmetry. apply (N.div_unique n 64 _ 0); subst n; lia. }
    rewrite Hq. symmetry.
    apply (N.mod_unique _ 64 (a1 * 64 + (a0 * 16 + b1))); lia. }
  assert (Hn' : n' = a * 1024 + b * 4) by (subst n'; rewrite Hx', Hy', Hz'; lia).
  rewrite Hn'.
  assert (H1 : (a * 1024 + b * 4) / 1024 = a).
  { symmetry. apply (N.div_unique _ 1024 a (b * 4)); lia. }
  assert (H2 : (a * 1024 + b * 4) / 4 = a * 256 + b).
  { symmetry. apply (N.div_unique _ 4 _ 0); lia. }
  rewrite H1, H2. split; [apply N.mod_small; lia|].
  symmetry. apply (N.mod_unique _ 256 a); lia.
Qed.

Lemma split1 a :
  a < 256 ->
  let n := a * 65536 in
  n / 262144 < 64 ∧ n / 4096 mod 64 < 64
  ∧ ((n / 262144 * 64 + n / 4096 mod 64) / 16) mod 256 = a.
Proof.
  intros Ha n.
  destruct (split3 a 0 0 Ha) as (Hx & Hy & _); [lia | lia |].
  cbv zeta in Hx, Hy. rewrite !N.add_0_r in Hx, Hy. fold n in Hx, Hy.
  split; [exact Hx|]. split; [exact Hy|].
  destruct (digits a 4) as [Ea Ha0]; [done|].
  set (a1 := a / 4) in *. set (a0 := a mod 4) in *.
  assert (Hx' : n / 262144 = a1).
  { symmetry. apply (N.div_unique n 262144 a1 (a0 * 16 * 4096)); subst n; lia. }
  assert (Hy' : n / 4096 mod 64 = a0 * 16).
  { assert (Hq : n / 4096 = a1 * 64 + a0 * 16).
    { symmetry. apply (N.div_unique n 4096 _ 0); subst n; lia. }
    rewrite Hq. symmetry. apply (N.mod_unique _ 64 a1); lia. }
  rewrite Hx', Hy'.
  assert (H1 : (a1 * 64 + a0 * 16) / 16 = a).
  { symmetry. apply (N.div_unique _ 16 a 0); lia. }
  rewrite H1. apply N.mod_small; lia.
Qed.


Lemma byte_of_mod n b : n mod 256 = Byte.to_N b -> byte_of n = b.
Proof. intros H. unfold byte_of. by rewrite H, Byte.of_to_N. Qed.

Lemma to_N_lt b : Byte.to_N b < 256.
Proof. pose proof (Byte.to_N_bounded b). lia. Qed.

Lemma filter_keep (c : ascii) (l : list ascii) :
  is_newline c = false ->
  List.filter (fun c => negb (is_newline c)) (c :: l)
  = c :: List.filter (fun c => negb (is_newline c)) l.
Proof. intros H. cbn [List.filter]. by rewrite H. Qed.

Lemma list_ind3 {A} (P : list A -> Prop) :
  P [] -> (∀ a, P [a]) -> (∀ a b, P [a; b]) ->
  (∀ a b c l, P l -> P (a :: b :: c :: l)) -> ∀ l, P l.
Proof.
  intros H0 H1 H2 H3 l.
  assert (H : P l ∧ (∀ a, P (a :: l)) ∧ (∀ a b, P (a :: b :: l))).
  { induction l as [|x l (IH0 & IH1 & IH2)]; [auto|].
    split; [apply IH1|]. split; [intros a; apply IH2|].
    intros a b. by apply H3. }
  apply H.
Qed.

Lemma decode_encode_bytes (l : list byte) :
  decode_quanta (List.filter (fun c => negb (is_newline c)) (encode_bytes l))
  = Some l.
Proof.
  induction l as [|a|a b|a b c l IH] using list_ind3.
  - reflexivity.
  - cbn [encode_bytes]. set (n := Byte.to_N a * 65536).
    destruct (split1 (Byte.to_N a) (to_N_lt a)) as (Hx & Hy & Ha).
    fold n in Hx, Hy, Ha.
    destruct (enc_facts _ Hx) as (Hdx & _ & Hnx).
    destruct (enc_facts _ Hy) as (Hdy & _ & Hny).
    rewrite !filter_keep by (assumption || reflexivity).
    cbn [List.filter decode_quanta]. rewrite Hdx, Hdy.
    change (Ascii.eqb pad pad) with true. cbn match.
    f_equal. f_equal. by apply byte_of_mod.
  - cbn [encode_bytes]. set (n := Byte.to_N a * 65536 + Byte.to_N b * 256).
    destruct (split2 (Byte.to_N a) (Byte.to_N b) (to_N_lt a) (to_N_lt b))
      as (Hx & Hy & Hz & Ha & Hb).
    fold n in Hx, Hy, Hz, Ha, Hb.
    destruct (enc_facts _ Hx) as (Hdx & _ & Hnx).
    destruct (enc_facts _ Hy) as (Hdy & _ & Hny).
    destruct (enc_facts _ Hz) as (Hdz & Hpz & Hnz).
    rewrite !filter_keep by (assumption || reflexivity).
    cbn [List.filter decode_quanta]. rewrite Hdx, Hdy.
    change (Ascii.eqb pad pad) with true. cbn match. rewrite Hpz, Hdz.
    f_equal. f_equal; [by apply byte_of_mod|]. f_equal. by apply byte_of_mod.
  - cbn [encode_bytes].
    set (n := Byte.to_N a * 65536 + Byte.to_N b * 256 + Byte.to_N c).
    destruct (split3 (Byte.to_N a) (Byte.to_N b) (Byte.to_N c)
                (to_N_lt a) (to_N_lt b) (to_N_lt c))
      as (Hx & Hy & Hz & Hw & Ha & Hb & Hc).
    fold n in Hx, Hy, Hz, Hw, Ha, Hb, Hc.
    destruct (enc_facts _ Hx) as (Hdx & _ & Hnx).
    destruct (enc_facts _ Hy) as (Hdy & _ & Hny).
    destruct (enc_facts _ Hz) as (Hdz & _ & Hnz).
    destruct (enc_facts _ Hw) as (Hdw & Hpw & Hnw).
    rewrite !filter_keep by assumption.
    cbn [decode_quanta]. rewrite Hdx, Hdy, Hpw, Hdz, Hdw, IH.
    f_equal. f_equal; [by apply byte_of_mod|].
    f_equal; [by apply byte_of_mod|]. f_equal. by apply byte_of_mod.
Qed.

(** Decoding an encoded payload gives the payload back. *)
Lemma Decode_Encode (l : list byte) :
  DecodeString (EncodeToString l) = Some l.
Proof.
  unfold DecodeString, EncodeToString.
  rewrite list_ascii_of_string_of_list_ascii. apply decode_encode_bytes.
Qed.

End Base64Facts.

Module MqttFacts.
Import Mqtt.
Local Open Scope string_scope.

(** The stored form of a payload decodes to the payload. *)
Example base64_hello :
  Base64.EncodeToString [Byte.x68; Byte.x65; Byte.x6c; Byte.x6c; Byte.x6f]
  = "aGVsbG8="
  ∧ Base64.DecodeString "aGVsbG8="
    = Some [Byte.x68; Byte.x65; Byte.x6c; Byte.x6c; Byte.x6f]
  ∧ Base64.DecodeString "aGVsbG8" = None.
Proof. repeat split. Qed.

Lemma queued_pending_init egName clientID clean :
  queued_pending (init egName clientID clean).
Proof. intros id [m Hm]. simpl in Hm. by rewrite lookup_empty in Hm. Qed.

Lemma queued_pending_set_Topics s t :
  queued_pending s -> queued_pending (set_Topics s t).
Proof. intros H. exact H. Qed.

Lemma queued_pending_publish client s topic payload qos :
  queued_pending s -> queued_pending (publish client s topic payload qos).1.
Proof.
  intros H. unfold publish.
  destruct (Topics (info s) !! topic) as [q|]; [|exact H].
  destruct (u8 q <? qos)%Z; [exact H|].
  destruct client; simpl; [|exact H].
  destruct (qos =? Qos0)%Z; [exact H|].
  destruct (qos =? Qos1)%Z; [|exact H].
  intros id Hid. simpl in *. apply elem_of_app.
  destruct (decide (nextID s = id)) as [->|Hne].
  - right. apply list_elem_of_singleton. reflexivity.
  - left. apply H. by rewrite lookup_insert_ne in Hid.
Qed.

Lemma queued_pending_puback s messageID :
  queued_pending s -> queued_pending (puback s messageID).
Proof.
  intros H id [m Hm]. simpl in *.
  apply lookup_delete_Some in Hm as [_ Hm]. apply H. eauto.
Qed.

Lemma first_pending_keeps pend queue rest idx val :
  first_pending pend queue = Some (rest, idx, val) ->
  ∀ id, is_Some (pend !! id) -> id ∈ queue -> id ∈ rest.
Proof.
  induction queue as [|x queue IH]; simpl; [discriminate|].
  destruct (pend !! x) as [v|] eqn:Hx.
  - intros [= <- <- <-] id _ Hin. exact Hin.
  - intros Hf id Hid Hin. apply elem_of_cons in Hin as [->|Hin].
    + rewrite Hx in Hid. by destruct Hid.
    + eauto.
Qed.

Lemma queued_pending_doResend client s :
  queued_pending s -> queued_pending (doResend client s).1.
Proof.
  intros H. unfold doResend. case_decide as Hsz.
  - intros id [m Hm]. simpl in *.
    apply map_size_empty_iff in Hsz. rewrite Hsz, lookup_empty in Hm. done.
  - destruct (first_pending (pending s) (pendingQueue s))
      as [[[rest idx] val]|] eqn:Hf; [|exact H].
    assert (Hrest : queued_pending
              {| info := info s; pending := pending s; pendingQueue := rest;
                 nextID := nextID s |}).
    { intros id Hid. simpl in *.
      eapply first_pending_keeps; eauto. }
    destruct (Base64.DecodeString (B64Payload val)); exact Hrest.
Qed.

Lemma queued_pending_step s o : queued_pending s -> queued_pending (step s o).
Proof.
  destruct o; simpl.
  - apply queued_pending_set_Topics.
  - apply queued_pending_set_Topics.
  - apply queued_pending_publish.
  - apply queued_pending_puback.
  - apply queued_pending_doResend.
Qed.

Lemma queued_pending_run ops : ∀ s, queued_pending s -> queued_pending (run s ops).
Proof.
  induction ops as [|o ops IH]; intros s H; simpl; [exact H|].
  apply IH, queued_pending_step, H.
Qed.

(** C2, as the code has it. For a session created by [init], after any
    sequence of subscribe, unsubscribe, publish, puback and background-resend
    operations, every key of [pending] is one of the packet ids in
    [pendingQueue]. (An acknowledged id stays in the queue until [doResend]
    drops it, so the queue can hold more ids than [pending] has keys.) *)
Theorem pending_keys_queued (egName clientID : string) (clean : bool)
        (ops : list op) :
  pending_keys (run (init egName clientID clean) ops)
  ⊆ queued_ids (run (init egName clientID clean) ops).
Proof.
  intros id Hid. unfold pending_keys, queued_ids in *.
  apply elem_of_list_to_set.
  apply (queued_pending_run ops _ (queued_pending_init egName clientID clean)).
  by apply elem_of_dom.
Qed.

Lemma subscribe_one s t q :
  Topics (info (subscribe s [t] [q])) !! t = Some q.
Proof. unfold subscribe. cbn [subscribe_loop fst set_Topics info Topics]. apply lookup_insert_eq. Qed.

(** C2, as stated, fails: a qos-1 publish followed by its PUBACK leaves the
    packet id in [pendingQueue] while [pending] is empty. *)
Lemma pending_keys_not_queue :
  let s0 := subscribe (init "eg" "c1" false) ["t"] [1%Z] in
  let s := run s0 [OpPublish true "t" [Byte.x78] 1%Z; OpPuback 0%Z] in
  pending s = ∅ ∧ pendingQueue s = [0%Z] ∧ pending_keys s ≠ queued_ids s.
Proof.
  assert (Hp : pending (run (subscribe (init "eg" "c1" false) ["t"] [1%Z])
                [OpPublish true "t" [Byte.x78] 1%Z; OpPuback 0%Z]) = ∅).
  { cbn [run foldl step]. unfold publish.
    rewrite subscribe_one. change (u8 1 <? 1)%Z with false.
    cbn -[insert delete]. rewrite delete_insert_eq. apply delete_empty. }
  assert (Hq : pendingQueue (run (subscribe (init "eg" "c1" false) ["t"] [1%Z])
                [OpPublish true "t" [Byte.x78] 1%Z; OpPuback 0%Z]) = [0%Z]).
  { cbn [run foldl step]. unfold publish.
    rewrite subscribe_one. reflexivity. }
  cbv zeta. split; [exact Hp|]. split; [exact Hq|].
  unfold pending_keys, queued_ids. rewrite Hp, Hq. rewrite dom_empty_L.
  intros Heq. assert (H0 : (0%Z : Z) ∈ (∅ : gset Z)).
  { rewrite Heq. apply elem_of_list_to_set, list_elem_of_singleton. reflexivity. }
  by apply not_elem_of_empty in H0.
Qed.

(** C3, as the code has it. [publish] hands a PUBLISH packet (carrying the
    session's next packet id) to the client exactly when the topic is
    subscribed with stored qos >= the delivery qos, the client is connected
    and the delivery qos is 0 or 1. With qos 0 nothing is stored. With qos 1 a
    dispatched message is also stored in [pending] under the packet id, and
    the id is appended to [pendingQueue]. With qos 2 nothing is sent and
    nothing is stored. Whenever nothing is sent, nothing is stored. *)
Theorem publish_dispatch (client : bool) (s : Session) (topic : string)
        (payload : list byte) (qos : Z) :
  let r := publish client s topic payload qos in
  let p := {| pkt_Qos := qos; pkt_TopicName := topic; pkt_Payload := payload;
              pkt_MessageID := nextID s |} in
  (r.2 = [p] ∨ r.2 = [])
  ∧ (r.2 = [p] ↔
     subscribed_at s topic qos ∧ client = true ∧ (qos = 0 ∨ qos = 1)%Z)
  ∧ (qos = 0%Z -> same_store s r.1)
  ∧ (qos = 1%Z -> r.2 = [p] ->
     pending r.1 = <[nextID s := getMsg topic payload 1]> (pending s)
     ∧ pendingQueue r.1 = (pendingQueue s ++ [nextID s])%list)
  ∧ (qos = 2%Z -> r.2 = [] ∧ same_store s r.1)
  ∧ (r.2 = [] -> same_store s r.1).
Proof.
  cbv zeta. unfold publish, subscribed_at, same_store.
  destruct (Topics (info s) !! topic) as [q|] eqn:Hq.
  2:{ cbn [fst snd]. repeat split; try (by right); try done.
      intros (( q & Hq' & _) & _); discriminate. }
  destruct (Z.ltb_spec (u8 q) qos) as [Hlt|Hge].
  { cbn [fst snd]. repeat split; try (by right); try done.
    intros ((q' & [= <-] & Hle) & _). lia. }
  destruct client; cbn [negb].
  2:{ cbn [fst snd]. repeat split; try (by right); try done.
      intros (_ & ? & _); discriminate. }
  cbn [getPacketFromMsg].
  destruct (Z.eqb_spec qos Qos0) as [->|H0]; unfold Qos0 in *.
  { cbn [fst snd pending pendingQueue]. repeat split; eauto; try done. }
  destruct (Z.eqb_spec qos Qos1) as [->|H1]; unfold Qos1 in *.
  { cbn [fst snd pending pendingQueue nextID pkt_MessageID].
    repeat split; eauto; try done. }
  cbn [fst snd pending pendingQueue]. repeat split; try (by right); try done.
  intros (_ & _ & [?|?]); congruence.
Qed.

Lemma publish_dispatch_witness :
  let s := subscribe (init "eg" "c1" false) ["t"] [1%Z] in
  let r := publish true s "t" [Byte.x78] 1 in
  let p := {| pkt_Qos := 1; pkt_TopicName := "t"; pkt_Payload := [Byte.x78];
              pkt_MessageID := 0 |} in
  r.2 = [p]
  ∧ pending r.1 = <[0%Z := getMsg "t" [Byte.x78] 1]> (pending s)
  ∧ pendingQueue r.1 = [0%Z].
Proof.
  cbv zeta.
  pose proof (publish_dispatch true (subscribe (init "eg" "c1" false) ["t"] [1%Z])
                "t" [Byte.x78] 1) as H.
  cbv zeta in H. destruct H as (_ & Hiff & _ & Hone & _).
  assert (Hsent : (publish true (subscribe (init "eg" "c1" false) ["t"] [1%Z])
                     "t" [Byte.x78] 1).2
                  = [{| pkt_Qos := 1; pkt_TopicName := "t";
                        pkt_Payload := [Byte.x78]; pkt_MessageID := 0 |}]).
  { apply Hiff. split; [|split; [reflexivity | right; reflexivity]].
    exists 1%Z. split; [apply subscribe_one | vm_compute; discriminate]. }
  split; [exact Hsent|]. exact (Hone eq_refl Hsent).
Defined.

(** C3, as stated, fails at qos 2: the topic is subscribed with stored qos 2,
    the client is connected, and no packet is dispatched. *)
Lemma publish_qos2_not_dispatched :
  let s := subscribe (init "eg" "c1" false) ["t"] [2%Z] in
  Topics (info s) !! "t" = Some 2%Z ∧ (2 >= 2)%Z
  ∧ (publish true s "t" [Byte.x78] 2).2 = [].
Proof.
  cbv zeta. split; [apply subscribe_one|]. split; [lia|].
  unfold publish. rewrite subscribe_one. reflexivity.
Qed.


(** ** The resend loop *)

Lemma first_pending_spec pend queue rest idx val :
  first_pending pend queue = Some (rest, idx, val) ->
  ∃ k : nat, rest = drop k queue
       ∧ (∀ id, id ∈ take k queue -> pend !! id = None)
       ∧ head rest = Some idx ∧ pend !! idx = Some val.
Proof.
  induction queue as [|x queue IH]; simpl; [discriminate|].
  destruct (pend !! x) as [v|] eqn:Hx.
  - intros [= <- <- <-]. exists 0%nat. split; [done|].
    split; [|done]. intros id Hid. by apply elem_of_nil in Hid.
  - intros (k & -> & Hnone & Hhead & Hval)%IH. exists (S k).
    split; [done|]. split; [|done].
    intros id [->|Hid]%elem_of_cons; auto.
Qed.

Lemma first_pending_None pend queue :
  first_pending pend queue = None ->
  ∀ id, id ∈ queue -> pend !! id = None.
Proof.
  induction queue as [|x queue IH]; simpl.
  - intros _ id Hid. by apply elem_of_nil in Hid.
  - destruct (pend !! x) as [v|] eqn:Hx; [discriminate|].
    intros Hf id [->|Hid]%elem_of_cons; auto.
Qed.

Lemma first_pending_head pend queue idx val :
  head queue = Some idx -> pend !! idx = Some val ->
  first_pending pend queue = Some (queue, idx, val).
Proof.
  destruct queue as [|x queue]; simpl; [discriminate|].
  intros [= ->] Hval. by rewrite Hval.
Qed.

Lemma doResend_keeps (client : bool) (s : Session) :
  pending (doResend client s).1 = pending s
  ∧ nextID (doResend client s).1 = nextID s
  ∧ info (doResend client s).1 = info s.
Proof.
  unfold doResend. case_decide; [done|].
  destruct (first_pending (pending s) (pendingQueue s)) as [[[rest idx] val]|];
    [|done].
  by destruct (Base64.DecodeString (B64Payload val)).
Qed.

(** X4. [doResend] is idempotent: a second run with no PUBACK in between
    sends the same packet again and leaves the session as the first run left
    it; [doResend] never touches [pending], [nextID] or the session info. *)
Theorem doResend_idempotent (client : bool) (s : Session) :
  doResend client (doResend client s).1 = doResend client s
  ∧ pending (doResend client s).1 = pending s
  ∧ nextID (doResend client s).1 = nextID s
  ∧ info (doResend client s).1 = info s.
Proof.
  destruct (decide (size (pending s) = 0%nat)) as [Hsz|Hsz].
  - assert (E : doResend client s
                = ({| info := info s; pending := pending s; pendingQueue := [];
                      nextID := nextID s |}, []))
      by (unfold doResend; by rewrite decide_True).
    rewrite E. cbn [fst]. split; [|done]. unfold doResend. cbn [pending].
    by rewrite decide_True.
  - destruct (first_pending (pending s) (pendingQueue s))
      as [[[rest idx] val]|] eqn:Hf.
    + destruct (first_pending_spec _ _ _ _ _ Hf) as (k & _ & _ & Hhead & Hval).
      destruct (Base64.DecodeString (B64Payload val)) as [payload|] eqn:Hd.
      * assert (E : doResend client s
                    = ({| info := info s; pending := pending s;
                          pendingQueue := rest; nextID := nextID s |},
                       if client
                       then [{| pkt_Qos := u8 (Qos val); pkt_TopicName := Topic val;
                                pkt_Payload := payload; pkt_MessageID := idx |}]
                       else []))
          by (unfold doResend; by rewrite decide_False, Hf, Hd).
        rewrite E. cbn [fst]. split; [|done]. unfold doResend.
        cbn [pending pendingQueue info nextID]. rewrite decide_False by done.
        by rewrite (first_pending_head _ _ _ _ Hhead Hval), Hd.
      * assert (E : doResend client s
                    = ({| info := info s; pending := pending s;
                          pendingQueue := rest; nextID := nextID s |}, []))
          by (unfold doResend; by rewrite decide_False, Hf, Hd).
        rewrite E. cbn [fst]. split; [|done]. unfold doResend.
        cbn [pending pendingQueue info nextID]. rewrite decide_False by done.
        by rewrite (first_pending_head _ _ _ _ Hhead Hval), Hd.
    + assert (E : doResend client s = (s, []))
        by (unfold doResend; by rewrite decide_False, Hf).
      rewrite E. cbn [fst]. split; [exact E | done].
Qed.



(** ** What a reachable session holds *)

Lemma encoded_pending_step s o : encoded_pending s -> encoded_pending (step s o).
Proof.
  intros H. destruct o as [topics qoss|topics|client topic payload qos|mid|client];
    cbn [step].
  - exact H.
  - exact H.
  - unfold publish.
    destruct (Topics (info s) !! topic) as [q|]; [|exact H].
    destruct (u8 q <? qos)%Z; [exact H|].
    destruct client; cbn [negb]; [|exact H].
    cbn [getPacketFromMsg]. destruct (qos =? Qos0)%Z; [exact H|].
    destruct (qos =? Qos1)%Z; [|exact H].
    intros id m. cbn [fst pending pkt_MessageID].
    destruct (decide (nextID s = id)) as [->|Hne].
    + rewrite lookup_insert_eq. intros [= <-]. by exists payload.
    + rewrite lookup_insert_ne by done. apply H.
  - intros id m Hm. cbn [puback pending] in Hm.
    apply lookup_delete_Some in Hm as [_ Hm]. exact (H id m Hm).
  - pose proof (doResend_keeps client s) as (Hp & _).
    intros id m. rewrite Hp. apply H.
Qed.

Lemma encoded_pending_run ops : ∀ s, encoded_pending s -> encoded_pending (run s ops).
Proof.
  induction ops as [|o ops IH]; intros s H; [exact H|].
  apply IH, encoded_pending_step, H.
Qed.

(** X6. In a session built by [init] and any operations, with the client
    connected, a run of [doResend] sends nothing exactly when nothing is
    pending: an unacknowledged message is resent on every tick. *)
Theorem resend_while_pending (egName clientID : string) (clean : bool)
        (ops : list op) :
  (doResend true (run (init egName clientID clean) ops)).2 = []
  ↔ pending (run (init egName clientID clean) ops) = ∅.
Proof.
  set (s := run (init egName clientID clean) ops).
  assert (Hq : queued_pending s)
    by (apply queued_pending_run, queued_pending_init).
  assert (He : encoded_pending s).
  { apply encoded_pending_run. intros id m Hm. cbn in Hm.
    by rewrite lookup_empty in Hm. }
  unfold doResend. case_decide as Hsz.
  - split; [intros _; by apply map_size_empty_iff | done].
  - assert (Hne : pending s ≠ ∅) by (by rewrite <- map_size_empty_iff).
    split; [|done]. intros Hnil. exfalso.
    destruct (first_pending (pending s) (pendingQueue s))
      as [[[rest idx] val]|] eqn:Hf.
    + destruct (first_pending_spec _ _ _ _ _ Hf) as (_ & _ & _ & _ & Hval).
      destruct (He idx val Hval) as [payload Hp].
      rewrite Hp, Base64Facts.Decode_Encode in Hnil. discriminate.
    + apply Hne. apply map_empty. intros id.
      destruct (pending s !! id) as [m|] eqn:Hm; [|done].
      rewrite <- (first_pending_None _ _ Hf id); [done|].
      apply Hq. by rewrite Hm.
Qed.

(** X7. A qos-1 message published while nothing else was pending is resent
    by [doResend] as the very packet that [publish] dispatched: same packet
    id, topic, qos and payload (the payload survives the base64 storage). *)
Theorem resend_repeats_publish (s : Session) (topic : string)
        (payload : list byte) (p : PublishPacket) :
  pending s = ∅ ->
  (publish true s topic payload 1).2 = [p] ->
  (doResend true (publish true s topic payload 1).1).2 = [p].
Proof.
  intros Hempty. unfold publish.
  destruct (Topics (info s) !! topic) as [q|]; [|discriminate].
  destruct (u8 q <? 1)%Z; [discriminate|].
  cbn [negb getPacketFromMsg]. change (1 =? Qos0)%Z with false.
  change (1 =? Qos1)%Z with true. cbn [fst snd pkt_MessageID pending pendingQueue].
  intros [= <-]. rewrite Hempty. unfold doResend. cbn [pending pendingQueue].
  rewrite decide_False by (rewrite map_size_insert_None by done; lia).
  destruct (first_pending (<[nextID s:=getMsg topic payload 1]> ∅)
              (pendingQueue s ++ [nextID s]))
    as [[[rest idx] val]|] eqn:Hf.
  - destruct (first_pending_spec _ _ _ _ _ Hf) as (_ & _ & _ & _ & Hval).
    apply lookup_insert_Some in Hval as [[<- <-]|[_ Hval]];
      [|by rewrite lookup_empty in Hval].
    cbn [getMsg B64Payload Qos Topic]. rewrite Base64Facts.Decode_Encode.
    reflexivity.
  - exfalso.
    pose proof (first_pending_None _ _ Hf (nextID s)) as Hn.
    rewrite lookup_insert_eq in Hn. discriminate Hn.
    apply elem_of_app. right. by left.
Qed.

Lemma resend_repeats_publish_witness :
  let s0 := subscribe (init "eg" "c1" false) ["t"] [1%Z] in
  let p := {| pkt_Qos := 1; pkt_TopicName := "t";
              pkt_Payload := [Byte.x68; Byte.x69]; pkt_MessageID := 0 |} in
  (doResend true (publish true s0 "t" [Byte.x68; Byte.x69] 1).1).2 = [p].
Proof.
  cbv zeta. apply resend_repeats_publish; [reflexivity|].
  unfold publish. rewrite subscribe_one. reflexivity.
Defined.

Ltac unchanged_queue H :=
  exists 0%nat, []; rewrite app_nil_r;
  split; [reflexivity|]; split; [simpl; lia | exact H].

(** X8. No operation reorders the queue or drops an unacknowledged id from
    it: after any operation the queue is what is left of the old queue after
    dropping some acknowledged ids at its front, followed by at most one new
    id at its end. *)
Theorem queue_is_fifo (s : Session) (o : op) :
  ∃ (k : nat) new,
    pendingQueue (step s o) = (drop k (pendingQueue s) ++ new)%list
    ∧ (length new <= 1)%nat
    ∧ ∀ id, id ∈ take k (pendingQueue s) -> pending s !! id = None.
Proof.
  assert (Hnil : ∀ id, id ∈ take 0 (pendingQueue s) -> pending s !! id = None).
  { intros id Hid. by apply elem_of_nil in Hid. }
  destruct o as [topics qoss|topics|client topic payload qos|mid|client];
    cbn [step].
  - unchanged_queue Hnil.
  - unchanged_queue Hnil.
  - unfold publish.
    destruct (Topics (info s) !! topic) as [q|];
      [|unchanged_queue Hnil].
    destruct (u8 q <? qos)%Z; [unchanged_queue Hnil|].
    destruct client; cbn [negb]; [|unchanged_queue Hnil].
    cbn [getPacketFromMsg].
    destruct (qos =? Qos0)%Z; [unchanged_queue Hnil|].
    destruct (qos =? Qos1)%Z; [|unchanged_queue Hnil].
    exists 0%nat, [nextID s]. split; [reflexivity|]. split; [simpl; lia | exact Hnil].
  - unchanged_queue Hnil.
  - unfold doResend. case_decide as Hsz.
    + exists (length (pendingQueue s)), []. cbn [fst pendingQueue].
      rewrite drop_all. split; [done|]. split; [simpl; lia|].
      intros id _. apply map_size_empty_iff in Hsz. by rewrite Hsz, lookup_empty.
    + destruct (first_pending (pending s) (pendingQueue s))
        as [[[rest idx] val]|] eqn:Hf;
        [|unchanged_queue Hnil].
      destruct (first_pending_spec _ _ _ _ _ Hf) as (k & -> & Hnone & _).
      exists k, []. rewrite app_nil_r.
      destruct (Base64.DecodeString (B64Payload val));
        (split; [reflexivity|]; split; [simpl; lia | exact Hnone]).
Qed.

(** ** Subscriptions *)

Lemma foldl_delete_lookup (topics : list string) (t : string) :
  ∀ m : gmap string Z,
    foldl (fun m t => delete t m) m topics !! t
    = if decide (t ∈ topics) then None else m !! t.
Proof.
  induction topics as [|t0 topics IH]; intros m; cbn [foldl].
  - rewrite decide_False; [done|]. apply not_elem_of_nil.
  - rewrite IH. destruct (decide (t ∈ topics)) as [Hin|Hnin].
    + rewrite decide_True; [done|]. by right.
    + destruct (decide (t = t0)) as [->|Hne].
      * rewrite decide_True by (by left). apply lookup_delete_eq.
      * rewrite decide_False by (intros [?|?]%elem_of_cons; done).
        by apply lookup_delete_ne.
Qed.

(** X9. [unsubscribe] removes exactly the listed topics from the
    subscriptions and keeps every other topic with its qos; it leaves
    [pending], [pendingQueue] and [nextID] alone, so messages already stored
    for an unsubscribed topic stay pending. *)
Theorem unsubscribe_removes (s : Session) (topics : list string) (t : string) :
  Topics (info (unsubscribe s topics)) !! t
  = (if decide (t ∈ topics) then None else Topics (info s) !! t)
  ∧ pending (unsubscribe s topics) = pending s
  ∧ pendingQueue (unsubscribe s topics) = pendingQueue s
  ∧ nextID (unsubscribe s topics) = nextID s.
Proof.
  split; [|done]. unfold unsubscribe. cbn [set_Topics info Topics].
  apply foldl_delete_lookup.
Qed.

Lemma subscribe_loop_other (topics : list string) (t : string) :
  t ∉ topics -> ∀ (qoss : list Z) (m : gmap string Z),
    (subscribe_loop topics qoss m).1 !! t = m !! t.
Proof.
  induction topics as [|t0 topics IH]; intros Hnin qoss m; cbn [subscribe_loop];
    [done|].
  apply not_elem_of_cons in Hnin as [Hne Hnin].
  destruct qoss as [|q0 qoss]; [done|].
  rewrite IH by done. by apply lookup_insert_ne.
Qed.

(** X10. [subscribe] stores for each topic the qos at the same position of
    the qos list, the last position deciding when a topic is listed more
    than once; topics that are not listed keep their entry, and [pending],
    [pendingQueue] and [nextID] are left alone. *)
Theorem subscribe_stores (s : Session) (topics : list string) (qoss : list Z)
        (t : string) :
  (t ∉ topics ->
   Topics (info (subscribe s topics qoss)) !! t = Topics (info s) !! t)
  ∧ (∀ (i : nat) q,
       topics !! i = Some t -> qoss !! i = Some q ->
       (∀ j : nat, (i < j)%nat -> topics !! j ≠ Some t) ->
       Topics (info (subscribe s topics qoss)) !! t = Some q)
  ∧ pending (subscribe s topics qoss) = pending s
  ∧ pendingQueue (subscribe s topics qoss) = pendingQueue s
  ∧ nextID (subscribe s topics qoss) = nextID s.
Proof.
  unfold subscribe. cbn [set_Topics info Topics pending pendingQueue nextID].
  split; [intros Hnin; by apply subscribe_loop_other|]. split; [|done].
  generalize (Topics (info s)). revert qoss.
  induction topics as [|t0 topics IH]; intros qoss m i q Ht Hq Hlast;
    [by rewrite lookup_nil in Ht|].
  destruct qoss as [|q0 qoss]; [by rewrite lookup_nil in Hq|].
  cbn [subscribe_loop]. destruct i as [|i]; cbn in Ht, Hq.
  - injection Ht as ->. injection Hq as ->.
    rewrite subscribe_loop_other; [apply lookup_insert_eq|].
    intros (j & Hj)%list_elem_of_lookup. apply (Hlast (S j)); [lia | exact Hj].
  - apply (IH qoss _ i q Ht Hq). intros j Hj. apply (Hlast (S j)). lia.
Qed.

Lemma subscribe_stores_witness :
  Topics (info (subscribe (init "eg" "c1" false) ["a"; "b"; "a"] [0; 1; 2]%Z))
    !! "a" = Some 2%Z.
Proof.
  apply (subscribe_stores (init "eg" "c1" false) ["a"; "b"; "a"] [0; 1; 2]%Z "a")
    with (i := 2%nat); [reflexivity | reflexivity |].
  intros [|[|[|j]]] Hj; (lia || discriminate).
Defined.

Lemma subscribe_loop_pairs (l : list (string * Z)) :
  NoDup l.*1 -> ∀ (m : gmap string Z) (t : string),
    (subscribe_loop l.*1 (u8 <$> l.*2) m).1 !! t
    = match (list_to_map l : gmap string Z) !! t with
      | Some q => Some (u8 q)
      | None => m !! t
      end.
Proof.
  induction l as [|[t0 q0] l IH]; intros Hnd m t; cbn; [done|].
  apply NoDup_cons in Hnd as [Hnin Hnd]. rewrite IH by done.
  destruct (decide (t = t0)) as [->|Hne].
  - rewrite (not_elem_of_list_to_map_1 _ _ Hnin), !lookup_insert_eq. done.
  - rewrite !lookup_insert_ne by done. done.
Qed.

(** X11. Subscribing a session without subscriptions to what
    [allSubscribes] returns, in whatever order the map was ranged over,
    gives back the subscriptions of the session asked, provided every stored
    qos is a byte (as [subscribe] writes them). *)
Theorem allSubscribes_restores (s s0 : Session) (l : list (string * Z)) :
  l ≡ₚ map_to_list (Topics (info s)) ->
  Topics (info s0) = ∅ ->
  (∀ t q, Topics (info s) !! t = Some q -> (0 <= q < 256)%Z) ->
  Topics (info (subscribe s0 (subscribes_in_order l).1
                          (subscribes_in_order l).2))
  = Topics (info s).
Proof.
  intros Hperm Hempty Hbytes. unfold subscribe, subscribes_in_order.
  cbn [set_Topics info Topics fst snd]. apply map_eq. intros t.
  assert (Hnd : NoDup l.*1).
  { rewrite Hperm. apply NoDup_fst_map_to_list. }
  rewrite subscribe_loop_pairs by done.
  assert (Hmap : (list_to_map l : gmap string Z) = Topics (info s)).
  { rewrite (list_to_map_proper l (map_to_list (Topics (info s)))) by done.
    apply list_to_map_to_list. }
  rewrite Hmap, Hempty, lookup_empty.
  destruct (Topics (info s) !! t) as [q|] eqn:Hq; [|done].
  f_equal. unfold u8, wrap. apply Z.mod_small. exact (Hbytes t q Hq).
Qed.

Lemma allSubscribes_restores_witness :
  let s := subscribe (init "eg" "c1" false) ["a"; "b"] [0; 1]%Z in
  Topics (info (subscribe (init "eg2" "c1" false) (allSubscribes s).1
                          (allSubscribes s).2))
  = Topics (info s).
Proof.
  cbv zeta. unfold allSubscribes.
  apply allSubscribes_restores; [reflexivity | reflexivity |].
  intros t q. unfold subscribe. cbn [subscribe_loop fst set_Topics info Topics init].
  intros Hq. apply lookup_insert_Some in Hq as [[_ <-]|[_ Hq]]; [lia|].
  apply lookup_insert_Some in Hq as [[_ <-]|[_ Hq]]; [lia|].
  by rewrite lookup_empty in Hq.
Defined.

(** X12. The store keys keep clients and topics apart: two client ids have
    the same session key only if they are equal, likewise for topics, and a
    session key is never a topic key. *)
Theorem store_keys_apart (a b : string) :
  (sessionStoreKey a = sessionStoreKey b -> a = b)
  ∧ (topicStoreKey a = topicStoreKey b -> a = b)
  ∧ sessionStoreKey a ≠ topicStoreKey b.
Proof.
  unfold sessionStoreKey, topicStoreKey, sessionPrefix, topicPrefix.
  cbn [String.append]. split; [|split].
  - intros H. by simplify_eq.
  - intros H. by simplify_eq.
  - intros H. discriminate H.
Qed.

Lemma store_keys_apart_witness :
  sessionStoreKey "c1" = "/mqtt/sessionMgr/clientID/c1"
  ∧ ("c1" = "c1" ∧ sessionStoreKey "c1" ≠ topicStoreKey "c1").
Proof.
  split; [reflexivity|].
  split; [apply (proj1 (store_keys_apart "c1" "c1")); reflexivity|].
  apply (store_keys_apart "c1" "c1").
Defined.

End MqttFacts.

Module ProxyFacts.
Import Proxy.

Section Validate.

Context {FilterSpec MemoryCacheSpec PoolError : Type}.
Variable poolValidate :
  @ServerPoolSpec FilterSpec MemoryCacheSpec -> option PoolError.

Lemma validatePools_count pools : ∀ i n k,
  validatePools poolValidate i n pools = inl k ->
  k = (n + length (List.filter no_filter pools))%nat.
Proof.
  induction pools as [|pool pools IH]; intros i n k; simpl.
  - intros [= <-]. lia.
  - destruct (poolValidate pool); [discriminate|].
    intros H%IH. unfold no_filter at 1.
    destruct (Filter pool); simpl in *; lia.
Qed.

Lemma validatePools_ok pools : ∀ i n,
  Forall (fun pool => poolValidate pool = None) pools ->
  validatePools poolValidate i n pools
  = inl (n + length (List.filter no_filter pools))%nat.
Proof.
  induction pools as [|pool pools IH]; intros i n Hall; simpl.
  - f_equal. lia.
  - inversion Hall as [|? ? Hp Hps]; subst. rewrite Hp, IH by done.
    unfold no_filter at 2. f_equal. destruct (Filter pool); simpl; lia.
Qed.

(** [Validate] accepts exactly the specs whose pools all validate, with one
    pool without a filter, and whose mirror pool, if any, has a filter and
    no memory cache. *)
Lemma Validate_nil_iff (s : Spec) :
  Validate poolValidate s = None ↔
  Forall (fun pool => poolValidate pool = None) (Pools s)
  ∧ mainPools s = 1%nat
  ∧ (∀ m, MirrorPool s = Some m ->
          is_Some (Filter m) ∧ MemoryCache m = None).
Proof.
  unfold Validate, mainPools. split.
  - destruct (validatePools poolValidate 0 0 (Pools s)) as [k|e] eqn:Hv;
      [|discriminate].
    assert (Hall : Forall (fun pool => poolValidate pool = None) (Pools s)).
    { clear -Hv. revert Hv. generalize 0%nat at 1. generalize 0%nat.
      induction (Pools s) as [|pool pools IH]; intros n i; simpl; [done|].
      destruct (poolValidate pool) eqn:Hp; [discriminate|].
      intros H. constructor; [done | eauto]. }
    apply validatePools_count in Hv. simpl in Hv. subst k.
    destruct (Nat.eqb_spec (length (List.filter no_filter (Pools s))) 1)
      as [Hone|Hne]; simpl; [|discriminate].
    intros Hm. split; [done|]. split; [done|].
    intros m Heq. rewrite Heq in Hm.
    destruct (Filter m); [|discriminate].
    destruct (MemoryCache m); [discriminate|]. eauto.
  - intros (Hall & Hone & Hmirror).
    rewrite (validatePools_ok _ 0 0 Hall). simpl. rewrite Hone. simpl.
    destruct (MirrorPool s) as [m|]; [|done].
    destruct (Hmirror m eq_refl) as [[f ->] ->]. done.
Qed.

End Validate.

(** C5. [Validate] returns nil only if exactly one pool of [Pools] has no
    filter expression; when the number of such pools is not one it returns an
    error; and when a mirror pool is present that has no filter expression or
    that declares a memory cache, it returns an error. *)
Theorem Validate_main_and_mirror {FilterSpec MemoryCacheSpec PoolError : Type}
        (poolValidate : @ServerPoolSpec FilterSpec MemoryCacheSpec -> option PoolError)
        (s : Spec) :
  (Validate poolValidate s = None -> mainPools s = 1%nat)
  ∧ (mainPools s ≠ 1%nat -> Validate poolValidate s ≠ None)
  ∧ (∀ m, MirrorPool s = Some m ->
          Filter m = None ∨ MemoryCache m ≠ None ->
          Validate poolValidate s ≠ None).
Proof.
  split; [|split].
  - intros H%Validate_nil_iff. tauto.
  - intros Hne H%Validate_nil_iff. tauto.
  - intros m Hm Hbad H%Validate_nil_iff.
    destruct H as (_ & _ & Hmirror).
    destruct (Hmirror m Hm) as [[f Hf] Hc].
    destruct Hbad as [Hnf|Hmc]; congruence.
Qed.

Lemma Validate_main_and_mirror_witness :
  Validate (fun _ => @None unit) one_main_spec = None
  ∧ mainPools one_main_spec = 1%nat.
Proof.
  split; [reflexivity|].
  apply (proj1 (Validate_main_and_mirror (fun _ => @None unit) one_main_spec)).
  reflexivity.
Defined.

Section Handle.

Context {FilterSpec MemoryCacheSpec : Type}.
Context {Request Ctx ServerPool : Type}.
Variable NewServerPool :
  @ServerPoolSpec FilterSpec MemoryCacheSpec -> poolName -> ServerPool.
Variable request : Ctx -> Request.
Variable Match : ServerPool -> Request -> bool.
Variable handle : ServerPool -> Ctx -> bool -> string.

Lemma choose_first (main : ServerPool) (candidates : list ServerPool) req :
  ∃ sp, choose Match (Some main) candidates req = Some sp
        ∧ chosen Match main candidates req sp.
Proof.
  unfold chosen. induction candidates as [|v candidates IH]; simpl.
  - exists main. split; [done|]. right. split; [done|].
    intros v Hv. by apply elem_of_nil in Hv.
  - destruct (Match v req) eqn:Hv.
    + exists v. split; [done|]. left. exists 0%nat.
      split; [done|]. split; [done|]. intros; lia.
    + destruct IH as (sp & Hsp & [(i & Hi & Hm & Hlt)|[Hmain Hnone]]);
        exists sp; (split; [done|]).
      * left. exists (S i). split; [done|]. split; [done|].
        intros [|j] w Hj Hw; simpl in Hw; [congruence|].
        apply (Hlt j); [lia | done].
      * right. split; [done|]. intros w [->|Hw]%elem_of_cons; auto.
Qed.

(** [reload] keeps the declared order of the pools with a filter. *)
Lemma foldl_addPool name pools : ∀ main (cands : list ServerPool),
  (foldl (addPool NewServerPool name) (main, cands) pools).2
  = (cands ++ declared_candidates NewServerPool name (length cands) pools)%list
  ∧ ((mainPools {| Name := name; Pools := pools; MirrorPool := None |} ≠ 0)%nat ->
     is_Some (foldl (addPool NewServerPool name) (main, cands) pools).1).
Proof.
  unfold mainPools. cbn [Pools].
  induction pools as [|spec pools IH]; intros main cands; simpl.
  - split; [by rewrite app_nil_r | done].
  - unfold addPool at 2 4, no_filter at 1. cbn [fst snd].
    destruct (Filter spec) as [f|]; simpl.
    + destruct (IH main
                  (cands ++ [NewServerPool spec (CandidateName name (length cands))])%list)
        as [Hc Hm].
      split; [|exact Hm].
      rewrite Hc, length_app, <- app_assoc. simpl.
      by rewrite Nat.add_1_r.
    + destruct (IH (Some (NewServerPool spec (MainName name))) cands) as [Hc Hm].
      split; [exact Hc|]. intros _.
      destruct (decide (length (List.filter no_filter pools) = 0%nat)) as [Hz|Hnz];
        [|auto].
      clear -Hz. apply length_zero_iff_nil in Hz.
      revert cands. induction pools as [|sp pools IH]; intros cands; simpl; [eauto|].
      simpl in Hz. unfold no_filter at 1 in Hz. unfold addPool at 2.
      destruct (Filter sp); [|discriminate]. cbn [fst snd]. apply IH, Hz.
Qed.

Lemma Init_pools (s : Spec) :
  candidatePools (Init NewServerPool (CreateInstance s))
  = declared_candidates NewServerPool (Name s) 0 (Pools s)
  ∧ (mainPools s = 1%nat ->
     is_Some (mainPool (Init NewServerPool (CreateInstance s)))).
Proof.
  unfold Init, reload, CreateInstance. cbn [spec mainPool candidatePools].
  destruct (foldl_addPool (Name s) (Pools s) None []) as [Hc Hm].
  split; [exact Hc|]. intros Hone. apply Hm.
  unfold mainPools in *. cbn [Pools]. lia.
Qed.

End Handle.

(** C4. With a main pool in place, [Handle] calls exactly one pool's
    [handle] with [mirror = false]: the first candidate pool, in order, whose
    filter matches the request, or the main pool when no candidate matches,
    and returns that call's result. A goroutine running the mirror pool's
    [handle] (with [mirror = true]) is started in addition exactly when a
    mirror pool is set and its filter matches; its result is not returned,
    and the returned result is the same whatever the mirror pool is. *)
Theorem Handle_dispatch {FilterSpec MemoryCacheSpec Request Ctx ServerPool : Type}
        (request : Ctx -> Request) (Match : ServerPool -> Request -> bool)
        (handle : ServerPool -> Ctx -> bool -> string)
        (p : @Proxy FilterSpec MemoryCacheSpec ServerPool) (ctx : Ctx)
        (main : ServerPool) :
  mainPool p = Some main ->
  ∃ sp,
    chosen Match main (candidatePools p) (request ctx) sp
    ∧ Handle request Match handle p ctx =
        Some (handle sp ctx false,
              match mirrorPool p with
              | Some m =>
                  if Match m (request ctx)
                  then [Go m true; Call sp false]
                  else [Call sp false]
              | None => [Call sp false]
              end)
    ∧ ∀ mirror',
        fst <$> Handle request Match handle
                  {| spec := spec p; mainPool := mainPool p;
                     candidatePools := candidatePools p;
                     mirrorPool := mirror' |} ctx
        = Some (handle sp ctx false).
Proof.
  intros Hmain.
  destruct (choose_first Match main (candidatePools p) (request ctx))
    as (sp & Hsp & Hchosen).
  exists sp. split; [exact Hchosen|]. unfold Handle. cbn [mainPool candidatePools].
  rewrite Hmain, Hsp. split.
  - destruct (mirrorPool p) as [m|]; [|reflexivity].
    destruct (Match m (request ctx)); reflexivity.
  - intros mirror'. reflexivity.
Qed.

(** A request for "/api/users" goes to the candidate pool and is mirrored;
    one for "/health" goes to the main pool. *)
Lemma Handle_dispatch_witness :
  Handle (fun ctx : string => ctx) demo_Match demo_handle demo_proxy "/api/users"
  = Some ("fallback"%string,
          [ Go ({| Filter := Some "/"%string; MemoryCache := None |},
                MirrorName "proxy-demo") true;
            Call ({| Filter := Some "/api"%string; MemoryCache := Some tt |},
                  CandidateName "proxy-demo" 0) false ]).
Proof.
  destruct (Handle_dispatch (fun ctx : string => ctx) demo_Match demo_handle
              demo_proxy "/api/users"
              ({| Filter := None; MemoryCache := None |}, MainName "proxy-demo")
              eq_refl)
    as (sp & Hchosen & Hhandle & _).
  rewrite Hhandle.
  assert (Hsp : sp = ({| Filter := Some "/api"%string; MemoryCache := Some tt |},
                      CandidateName "proxy-demo" 0)).
  { vm_compute in Hhandle. by injection Hhandle as _ ->. }
  rewrite Hsp. reflexivity.
Defined.

Section ValidateErrors.

Context {FilterSpec MemoryCacheSpec PoolError : Type}.
Variable poolValidate :
  @ServerPoolSpec FilterSpec MemoryCacheSpec -> option PoolError.

Lemma validatePools_inr pools : ∀ i0 n err,
  validatePools poolValidate i0 n pools = inr err ↔
  ∃ (k : nat) e, err = ErrPool (i0 + k) e ∧ first_invalid poolValidate pools k e.
Proof.
  unfold first_invalid.
  induction pools as [|pool pools IH]; intros i0 n err; cbn [validatePools].
  - split; [discriminate|]. intros (k & e & _ & (p & Hp & _) & _).
    by rewrite lookup_nil in Hp.
  - destruct (poolValidate pool) as [e0|] eqn:Hv.
    + split.
      * intros [= <-]. exists 0%nat, e0. rewrite Nat.add_0_r.
        split; [done|]. split; [by exists pool|]. intros; lia.
      * intros (k & e & -> & (p & Hp & Hpe) & Hfirst).
        destruct k as [|k].
        -- cbn in Hp. injection Hp as <-. rewrite Nat.add_0_r. congruence.
        -- specialize (Hfirst 0%nat pool). cbn in Hfirst.
           rewrite Hfirst in Hv; [discriminate | lia | done].
    + rewrite IH. split.
      * intros (k & e & -> & (p & Hp & Hpe) & Hfirst).
        exists (S k), e. split; [f_equal; lia|]. split; [by exists p|].
        intros [|j] q Hj Hq; cbn in Hq; [congruence|].
        apply (Hfirst j); [lia | done].
      * intros (k & e & -> & (p & Hp & Hpe) & Hfirst).
        destruct k as [|k]; [cbn in Hp; congruence|].
        exists k, e. split; [f_equal; lia|]. split; [by exists p|].
        intros j q Hj Hq. apply (Hfirst (S j)); [lia | done].
Qed.

Lemma validatePools_all_ok pools i0 n k :
  validatePools poolValidate i0 n pools = inl k ->
  Forall (fun pool => poolValidate pool = None) pools.
Proof.
  revert i0 n. induction pools as [|pool pools IH]; intros i0 n; cbn; [done|].
  destruct (poolValidate pool) eqn:Hp; [discriminate|].
  intros H. constructor; [done | eauto].
Qed.

End ValidateErrors.

(** X13. [Validate] reports its errors in a fixed order: the first pool that
    does not validate, by its index and with its error, whatever else is
    wrong; then, all pools validating, a number of main pools other than
    one; then a mirror pool without a filter; then a mirror pool with a
    memory cache. *)
Theorem Validate_error_order {FilterSpec MemoryCacheSpec PoolError : Type}
        (poolValidate : @ServerPoolSpec FilterSpec MemoryCacheSpec -> option PoolError)
        (s : Spec) :
  let all_ok := Forall (fun pool => poolValidate pool = None) (Pools s) in
  (∀ i e, Validate poolValidate s = Some (ErrPool i e)
          ↔ first_invalid poolValidate (Pools s) i e)
  ∧ (Validate poolValidate s = Some ErrMainPool
     ↔ all_ok ∧ mainPools s ≠ 1%nat)
  ∧ (Validate poolValidate s = Some ErrMirrorFilter
     ↔ all_ok ∧ mainPools s = 1%nat
       ∧ ∃ m, MirrorPool s = Some m ∧ Filter m = None)
  ∧ (Validate poolValidate s = Some ErrMirrorCache
     ↔ all_ok ∧ mainPools s = 1%nat
       ∧ ∃ m, MirrorPool s = Some m ∧ is_Some (Filter m)
              ∧ is_Some (MemoryCache m)).
Proof.
  cbv zeta. unfold Validate, mainPools.
  destruct (validatePools poolValidate 0 0 (Pools s)) as [k|err] eqn:Hv.
  - pose proof (validatePools_all_ok _ _ _ _ _ Hv) as Hall.
    assert (Hno : ∀ i e, ¬ first_invalid poolValidate (Pools s) i e).
    { intros i e ((pool & Hp & He) & _).
      rewrite Forall_forall in Hall.
      rewrite (Hall pool) in He; [discriminate|].
      by apply list_elem_of_lookup_2 in Hp. }
    apply validatePools_count in Hv. cbn in Hv. subst k.
    destruct (Nat.eqb_spec (length (List.filter no_filter (Pools s))) 1)
      as [Hone|Hne]; cbn [negb].
    + destruct (MirrorPool s) as [m|].
      * destruct (Filter m) as [f|] eqn:Hf.
        -- destruct (MemoryCache m) as [c|] eqn:Hc.
           ++ split; [intros i e; split; [discriminate | intros H; by apply Hno in H]|].
              split; [split; [discriminate | tauto]|].
              split; [split; [discriminate|];
                      intros (_ & _ & m' & [= <-] & Hf'); congruence|].
              split; [intros _|done]. split; [done|]. split; [done|].
              exists m. rewrite Hf, Hc. eauto.
           ++ split; [intros i e; split; [discriminate | intros H; by apply Hno in H]|].
              split; [split; [discriminate | tauto]|].
              split; [split; [discriminate|];
                      intros (_ & _ & m' & [= <-] & Hf'); congruence|].
              split; [discriminate|].
              intros (_ & _ & m' & [= <-] & _ & [c Hc']). congruence.
        -- split; [intros i e; split; [discriminate | intros H; by apply Hno in H]|].
           split; [split; [discriminate | tauto]|].
           split; [split; [intros _|done]; split; [done|]; split; [done|]; eauto|].
           split; [discriminate|].
           intros (_ & _ & m' & [= <-] & [f Hf'] & _). congruence.
      * split; [intros i e; split; [discriminate | intros H; by apply Hno in H]|].
        split; [split; [discriminate | tauto]|].
        split; [split; [discriminate|]; intros (_ & _ & m' & Hm & _); discriminate|].
        split; [discriminate|]. intros (_ & _ & m' & Hm & _); discriminate.
    + split; [intros i e; split; [discriminate | intros H; by apply Hno in H]|].
      split; [split; [done | done]|].
      split; [split; [discriminate | tauto]|].
      split; [discriminate | tauto].
  - apply validatePools_inr in Hv as (k & e & -> & Hfirst). cbn [Nat.add] in *.
    assert (Hbad : ¬ Forall (fun pool => poolValidate pool = None) (Pools s)).
    { intros Hall. destruct Hfirst as ((pool & Hp & He) & _).
      rewrite Forall_forall in Hall.
      rewrite (Hall pool) in He; [discriminate|].
      by apply list_elem_of_lookup_2 in Hp. }
    split.
    { intros i e'. split.
      - intros [= <- <-]. exact Hfirst.
      - intros Hf'. destruct Hfirst as ((p1 & Hp1 & He1) & Hlt1).
        destruct Hf' as ((p2 & Hp2 & He2) & Hlt2).
        destruct (Nat.lt_trichotomy i k) as [Hlt|[->|Hgt]].
        + rewrite (Hlt1 i p2 Hlt Hp2) in He2. discriminate.
        + congruence.
        + rewrite (Hlt2 k p1 Hgt Hp1) in He1. discriminate. }
    split; [split; [discriminate | tauto]|].
    split; [split; [discriminate | tauto]|].
    split; [discriminate | tauto].
Qed.

(** X14. A proxy built by [Init] from a spec that [Validate] accepts always
    has a pool to call: [Handle] returns a result for every request; its
    candidate pools are the pools of the spec that have a filter, in the
    declared order, one less in number than the pools of the spec; and it has
    a mirror pool exactly when the spec has one. *)
Theorem validated_proxy_handles
        {FilterSpec MemoryCacheSpec PoolError Request Ctx ServerPool : Type}
        (poolValidate : @ServerPoolSpec FilterSpec MemoryCacheSpec -> option PoolError)
        (NewServerPool : @ServerPoolSpec FilterSpec MemoryCacheSpec -> poolName -> ServerPool)
        (request : Ctx -> Request) (Match : ServerPool -> Request -> bool)
        (handle : ServerPool -> Ctx -> bool -> string)
        (s : Spec) :
  Validate poolValidate s = None ->
  let p := Init NewServerPool (CreateInstance s) in
  (∀ ctx, is_Some (Handle request Match handle p ctx))
  ∧ candidatePools p = declared_candidates NewServerPool (Name s) 0 (Pools s)
  ∧ S (length (candidatePools p)) = length (Pools s)
  ∧ (is_Some (mirrorPool p) ↔ is_Some (MirrorPool s)).
Proof.
  intros Hvalid. cbv zeta.
  apply Validate_nil_iff in Hvalid as (_ & Hone & _).
  destruct (Init_pools NewServerPool s) as [Hc Hm].
  destruct (Hm Hone) as [main Hmain].
  split; [|split; [exact Hc|split]].
  - intros ctx. unfold Handle. rewrite Hmain.
    destruct (choose_first Match main
                (candidatePools (Init NewServerPool (CreateInstance s)))
                (request ctx)) as (sp & -> & _).
    eauto.
  - rewrite Hc. unfold mainPools in Hone. clear -Hone.
    assert (Hlen : ∀ pools id,
               (length (declared_candidates NewServerPool (Name s) id pools)
                + length (List.filter no_filter pools) = length pools)%nat).
    { induction pools as [|pool pools IH]; intros id; cbn; [done|].
      unfold no_filter at 1. pose proof (IH id) as IH0. pose proof (IH (S id)) as IH1.
      destruct (Filter pool); cbn; lia. }
    specialize (Hlen (Pools s) 0%nat). lia.
  - unfold Init, reload, CreateInstance. cbn [spec mirrorPool].
    destruct (MirrorPool s); split; intros [x Hx]; eauto; discriminate.
Qed.

Lemma validated_proxy_handles_witness :
  is_Some (Handle (fun ctx : string => ctx) demo_Match demo_handle demo_proxy
                  "/health")
  ∧ length (candidatePools demo_proxy) = 1%nat.
Proof.
  destruct (validated_proxy_handles (fun _ => @None unit) pair
              (fun ctx : string => ctx) demo_Match demo_handle one_main_spec
              eq_refl) as (Hh & _ & Hlen & _).
  split; [apply Hh|]. cbn in Hlen. unfold demo_proxy. cbn. lia.
Defined.

End ProxyFacts.

Module HttpServerFacts.
Import HttpServer.

Section Runtime.

Context {TracingSpec IPFilterSpec Rule : Type}.
Context `{EqDecision TracingSpec, EqDecision IPFilterSpec, EqDecision Rule}.

Abbreviation Spec := (@Spec TracingSpec IPFilterSpec Rule).
Abbreviation runtime := (@runtime TracingSpec IPFilterSpec Rule).

Lemma needRestartServer_true (cur nxt : Spec) :
  needRestartServer cur nxt = true ↔ differs_elsewhere cur nxt.
Proof.
  unfold needRestartServer, differs_elsewhere.
  rewrite negb_true_iff, bool_decide_eq_false. split.
  - intros Hne.
    destruct (decide (HTTP3 cur = HTTP3 nxt)) as [E1|]; [|tauto].
    destruct (decide (Port cur = Port nxt)) as [E2|]; [|tauto].
    destruct (decide (KeepAlive cur = KeepAlive nxt)) as [E3|]; [|tauto].
    destruct (decide (KeepAliveTimeout cur = KeepAliveTimeout nxt))
      as [E4|]; [|tauto].
    destruct (decide (HTTPS cur = HTTPS nxt)) as [E5|]; [|tauto].
    destruct (decide (CertBase64 cur = CertBase64 nxt)) as [E6|]; [|tauto].
    destruct (decide (KeyBase64 cur = KeyBase64 nxt)) as [E7|]; [|tauto].
    exfalso. apply Hne. by rewrite E1, E2, E3, E4, E5, E6, E7.
  - intros Hd Heq. injection Heq as E1 E2 E3 E4 E5 E6 E7.
    destruct Hd as [?|[?|[?|[?|[?|[?|?]]]]]]; congruence.
Qed.

Lemma startServer_starts listen (r : runtime) (sp : Spec) :
  spec r = Some sp ->
  ∃ r' tr, startServer listen r = Some (r', tr)
           ∧ startNum r' = u64 (startNum r + 1)
           ∧ spec r' = Some sp ∧ muxRules r' = muxRules r
           ∧ existsb is_start tr = true ∧ existsb is_stop tr = false.
Proof.
  intros Hsp. unfold startServer. rewrite Hsp.
  destruct (HTTP3 sp); [eauto 10|].
  destruct listen; eauto 10.
Qed.

End Runtime.

(** C6. A [reload] of a running runtime with current spec [cur] and next
    spec [nxt] takes [nxt] as the spec and hands it to the mux. When [nxt]
    differs from [cur] in no field other than [Rules], [MaxConnections],
    [CacheSize], [XForwardedFor], [Tracing] and [IPFilter] (so when
    [nxt = cur]) it does nothing else: no effect on the servers, and
    [startNum], state and error stay. When another field differs it closes
    and then starts: one close, then the start of a server for [nxt] under
    the next start number, which leaves the runtime [failed] and nothing
    serving when [Listen] fails. The close, however, is [r.server3.Close()]
    whenever an HTTP/3 server was ever set, and [r.server.Shutdown] only
    otherwise: when the server that runs is the HTTP/1-2 one ([cur] does not
    ask for HTTP/3) and [server3] still holds an earlier HTTP/3 server, the
    running server is not shut down before the new one is started. *)
Theorem reload_restart_effects {TracingSpec IPFilterSpec Rule : Type}
        `{EqDecision TracingSpec, EqDecision IPFilterSpec, EqDecision Rule}
        (listen : option string)
        (r : @runtime TracingSpec IPFilterSpec Rule)
        (cur nxt : @Spec TracingSpec IPFilterSpec Rule) :
  state r = stateRunning -> spec r = Some cur -> server r = true ->
  ∃ r' tr,
    reload listen r (Some nxt) = Some (r', tr)
    ∧ spec r' = Some nxt ∧ muxRules r' = Some nxt
    ∧ (¬ differs_elsewhere cur nxt ->
       tr = [] ∧ startNum r' = startNum r ∧ state r' = state r
       ∧ err r' = err r ∧ server r' = server r ∧ server3 r' = server3 r)
    ∧ (cur = nxt -> tr = [])
    ∧ (differs_elsewhere cur nxt ->
       startNum r' = u64 (startNum r + 1)
       ∧ tr = (if server3 r then Shutdown3 else Shutdown)
              :: (if HTTP3 nxt then [ServeHTTP3 (u64 (startNum r + 1))]
                  else Listen (Port nxt)
                       :: match listen with
                          | None => [ServeHTTP (HTTPS nxt) (u64 (startNum r + 1))]
                          | Some _ => []
                          end)
       ∧ state r' = (if HTTP3 nxt then stateRunning
                     else match listen with
                          | None => stateRunning
                          | Some _ => stateFailed
                          end))
    ∧ (differs_elsewhere cur nxt -> HTTP3 cur = false -> server3 r = true ->
       Shutdown ∉ tr).
Proof.
  intros Hst Hsp Hsrv. unfold reload. cbn [spec]. rewrite Hsp.
  destruct (needRestartServer cur nxt) eqn:Hneed.
  - apply needRestartServer_true in Hneed.
    assert (Hclose : closeServer
                       (setSpec
                          {| superSpec := Some nxt; spec := Some cur;
                             server := server r; server3 := server3 r;
                             muxRules := Some nxt; startNum := startNum r;
                             state := state r; err := err r;
                             limitListener :=
                               match limitListener r with
                               | Some _ => Some (MaxConnections nxt)
                               | None => None
                               end |} (Some nxt))
                     = [if server3 r then Shutdown3 else Shutdown]).
    { unfold closeServer. cbn [setSpec server3 server]. rewrite Hsrv.
      by destruct (server3 r). }
    unfold startServer. cbn [setSpec spec startNum].
    destruct (HTTP3 nxt) eqn:H3.
    + eexists _, _. split; [reflexivity|]. rewrite Hclose. cbn.
      split; [reflexivity|]. split; [reflexivity|].
      split; [intros Hno; contradiction|].
      split; [intros ->; exfalso; unfold differs_elsewhere in Hneed; tauto|].
      split; [intros _; done|].
      intros _ _ ->. intros Hin.
      repeat (apply elem_of_cons in Hin as [Hin|Hin]; [discriminate|]).
      by apply elem_of_nil in Hin.
    + destruct listen as [e|].
      * eexists _, _. split; [reflexivity|]. rewrite Hclose. cbn.
        split; [reflexivity|]. split; [reflexivity|].
        split; [intros Hno; contradiction|].
        split; [intros ->; exfalso; unfold differs_elsewhere in Hneed; tauto|].
        split; [intros _; done|].
        intros _ _ ->. intros Hin.
        repeat (apply elem_of_cons in Hin as [Hin|Hin]; [discriminate|]).
        by apply elem_of_nil in Hin.
      * eexists _, _. split; [reflexivity|]. rewrite Hclose. cbn.
        split; [reflexivity|]. split; [reflexivity|].
        split; [intros Hno; contradiction|].
        split; [intros ->; exfalso; unfold differs_elsewhere in Hneed; tauto|].
        split; [intros _; done|].
        intros _ _ ->. intros Hin.
        repeat (apply elem_of_cons in Hin as [Hin|Hin]; [discriminate|]).
        by apply elem_of_nil in Hin.
  - assert (Hno : ¬ differs_elsewhere cur nxt).
    { intros Hd. apply needRestartServer_true in Hd. congruence. }
    eexists _, []. split; [reflexivity|]. cbn.
    split; [reflexivity|]. split; [reflexivity|].
    split; [intros _; repeat split|].
    split; [intros _; reflexivity|].
    split; [intros Hd; contradiction|].
    intros Hd. contradiction.
Qed.

Lemma reload_restart_effects_witness :
  state demo_stale = stateRunning ∧ spec demo_stale = Some demo_spec
  ∧ server3 demo_stale = true
  ∧ ∃ r', reload None demo_stale (Some demo_spec_moved)
          = Some (r', [Shutdown3; Listen 10081; ServeHTTP false 3])
          ∧ state r' = stateRunning
          ∧ Shutdown ∉ [Shutdown3; Listen 10081; ServeHTTP false 3].
Proof.
  assert (Hst : state demo_stale = stateRunning) by (vm_compute; reflexivity).
  assert (Hsp : spec demo_stale = Some demo_spec) by (vm_compute; reflexivity).
  assert (Hsrv : server demo_stale = true) by (vm_compute; reflexivity).
  assert (H3 : server3 demo_stale = true) by (vm_compute; reflexivity).
  assert (Hd : differs_elsewhere demo_spec demo_spec_moved).
  { right. left. vm_compute. discriminate. }
  split; [exact Hst|]. split; [exact Hsp|]. split; [exact H3|].
  destruct (reload_restart_effects None demo_stale demo_spec demo_spec_moved
              Hst Hsp Hsrv)
    as (r' & tr & Hr & _ & _ & _ & _ & Hdiff & Hkeep).
  destruct (Hdiff Hd) as (Hn & Htr & Hstate).
  assert (Etr : tr = [Shutdown3; Listen 10081; ServeHTTP false 3]).
  { rewrite Htr. vm_compute. reflexivity. }
  exists r'. split; [by rewrite <- Etr|]. split; [exact Hstate|].
  rewrite <- Etr. apply Hkeep; [exact Hd | reflexivity | exact H3].
Defined.

(** C7. Every [startServer] adds one to [startNum] (a uint64). A
    [serveFailed] event whose [startNum] is lower than the runtime's leaves
    the runtime, and so its state and error, as they were; any other
    [serveFailed] event sets the state to failed and the error to the
    event's error. *)
Theorem startNum_guards_serveFailed {TracingSpec IPFilterSpec Rule : Type}
        (listen : option string)
        (r : @runtime TracingSpec IPFilterSpec Rule)
        (e : eventServeFailed) :
  (∀ sp, spec r = Some sp ->
     ∃ r' tr, startServer listen r = Some (r', tr)
              ∧ startNum r' = u64 (startNum r + 1)
              ∧ (0 <= startNum r < 2 ^ 64 - 1 -> startNum r' = startNum r + 1))
  ∧ (ev_startNum e < startNum r -> handleEventServeFailed r e = r)
  ∧ (¬ ev_startNum e < startNum r ->
     state (handleEventServeFailed r e) = stateFailed
     ∧ err (handleEventServeFailed r e) = default errNil (ev_err e)
     ∧ startNum (handleEventServeFailed r e) = startNum r
     ∧ spec (handleEventServeFailed r e) = spec r).
Proof.
  split; [|split].
  - intros sp Hsp.
    assert (Hstart : ∃ r' tr, startServer listen r = Some (r', tr)
                              ∧ startNum r' = u64 (startNum r + 1)).
    { unfold startServer. rewrite Hsp.
      destruct (HTTP3 sp); [eauto|]. destruct listen; eauto. }
    destruct Hstart as (r' & tr & Hs & Hn). exists r', tr.
    split; [exact Hs|]. split; [exact Hn|].
    intros Hrange. rewrite Hn. unfold u64, wrap. apply Z.mod_small. lia.
  - intros Hlt. unfold handleEventServeFailed.
    destruct (Z.ltb_spec (ev_startNum e) (startNum r)); [reflexivity | lia].
  - intros Hge. unfold handleEventServeFailed.
    destruct (Z.ltb_spec (ev_startNum e) (startNum r)); [lia|].
    repeat split.
Qed.

Lemma startNum_guards_serveFailed_witness :
  handleEventServeFailed demo_runtime
    {| ev_startNum := 0; ev_err := Some "listener closed"%string |}
  = demo_runtime
  ∧ state (handleEventServeFailed demo_runtime
             {| ev_startNum := 1; ev_err := Some "accept failed"%string |})
    = stateFailed
  ∧ ∃ r' tr, startServer None demo_runtime = Some (r', tr) ∧ startNum r' = 2.
Proof.
  split; [|split].
  - apply (startNum_guards_serveFailed None demo_runtime
             {| ev_startNum := 0; ev_err := Some "listener closed"%string |}).
    reflexivity.
  - apply (startNum_guards_serveFailed None demo_runtime
             {| ev_startNum := 1; ev_err := Some "accept failed"%string |}).
    simpl. lia.
  - destruct (proj1 (startNum_guards_serveFailed None demo_runtime
                       {| ev_startNum := 0; ev_err := None |})
                    demo_spec eq_refl)
      as (r' & tr & Hs & _ & Hn).
    exists r', tr. split; [exact Hs|]. apply Hn. simpl. lia.
Defined.

Section EventLoop.

Context {TracingSpec IPFilterSpec Rule : Type}.
Context `{EqDecision TracingSpec, EqDecision IPFilterSpec, EqDecision Rule}.

Abbreviation Spec' := (@Spec TracingSpec IPFilterSpec Rule).
Abbreviation runtime' := (@runtime TracingSpec IPFilterSpec Rule).

Lemma startServer_ok listen (r r' : runtime') tr :
  startServer listen r = Some (r', tr) ->
  status_ok r' ∧ (server3 r = true -> server3 r' = true)
  ∧ Forall (fun e => e ≠ Shutdown) tr.
Proof.
  unfold startServer, status_ok. destruct (spec r) as [sp|]; [|discriminate].
  destruct (HTTP3 sp).
  - intros [= <- <-]. cbn. repeat split; try done. by repeat constructor.
  - destruct listen as [e|]; intros [= <- <-]; cbn; repeat split; try done;
      by repeat constructor.
Qed.

Lemma closeServer_http3 (r : runtime') :
  server3 r = true -> closeServer r = [Shutdown3].
Proof. intros H. unfold closeServer. by rewrite H. Qed.

Lemma reload_ok listen (r r' : runtime') nextSpec tr :
  status_ok r -> reload listen r nextSpec = Some (r', tr) ->
  status_ok r' ∧ (server3 r = true -> server3 r' = true)
  ∧ (server3 r = true -> Forall (fun e => e ≠ Shutdown) tr).
Proof.
  intros Hok. unfold reload. cbn [spec].
  destruct (spec r) as [cur|] eqn:Hsp; destruct nextSpec as [n|].
  - destruct (needRestartServer cur n).
    + set (r2 := setSpec _ _).
      destruct (startServer listen r2) as [[r3 started]|] eqn:Hs; [|discriminate].
      intros [= <- <-]. destruct (startServer_ok _ _ _ _ Hs) as (H1 & H2 & H3).
      split; [exact H1|]. split; [exact H2|]. intros H3'.
      apply Forall_app. split; [|exact H3].
      change (closeServer r2) with (closeServer r).
      rewrite closeServer_http3 by done. by repeat constructor.
    + intros [= <- <-]. split; [exact Hok|]. split; [done|]. intros _. constructor.
  - intros [= <- <-]. split; [exact Hok|]. split; [done|]. intros H3.
    constructor; [done|].
    change (closeServer (setSpec _ None)) with (closeServer r).
    rewrite closeServer_http3 by done. by repeat constructor.
  - intros Hs. destruct (startServer_ok _ _ _ _ Hs) as (H1 & H2 & H3).
    split; [exact H1|]. split; [exact H2|]. intros _. exact H3.
  - intros [= <- <-]. split; [exact Hok|]. split; [done|]. intros _.
    by repeat constructor.
Qed.

Lemma handlers_ok (r : runtime') (ev : event) listen r' effects :
  status_ok r ->
  match ev with
  | EvCheckFailed => handleEventCheckFailed listen r
  | EvServeFailed e => Some (handleEventServeFailed r e, [])
  | EvReload nextSpec => reload listen r nextSpec
  | EvClose => None
  end = Some (r', effects) ->
  status_ok r' ∧ (server3 r = true -> server3 r' = true)
  ∧ (server3 r = true -> Forall (fun e => e ≠ Shutdown) effects).
Proof.
  intros Hok. destruct ev as [|e|nextSpec|].
  - unfold handleEventCheckFailed. destruct (state r) eqn:Hst;
      try (intros [= <- <-]; split; [exact Hok|]; split; [done|]; intros _;
           constructor).
    intros Hs. destruct (startServer_ok _ _ _ _ Hs) as (H1 & H2 & H3).
    split; [exact H1|]. split; [exact H2|]. intros _. exact H3.
  - intros [= <- <-]. unfold handleEventServeFailed.
    destruct (ev_startNum e <? startNum r)%Z.
    + split; [exact Hok|]. split; [done|]. intros _. constructor.
    + split; [|split; [done | intros _; constructor]].
      unfold status_ok. cbn. repeat split; done.
  - apply reload_ok, Hok.
  - discriminate.
Qed.

Lemma fsm_ok events : ∀ r : runtime',
  status_ok r ->
  status_ok (fsm r events).1.1
  ∧ (server3 r = true ->
     server3 (fsm r events).1.1 = true
     ∧ Listener Shutdown ∉ (fsm r events).1.2).
Proof.
  induction events as [|[ev listen] events IH]; intros r Hok.
  - cbn. split; [exact Hok|]. intros H3. split; [exact H3|]. apply not_elem_of_nil.
  - cbn [fsm].
    destruct ev as [|e|nextSpec|].
    + destruct (handleEventCheckFailed listen r) as [[r' effects]|] eqn:Hh.
      * destruct (handlers_ok r EvCheckFailed listen r' effects Hok Hh)
          as (Hok' & H3' & Heff).
        destruct (IH r' Hok') as [Hfin Hfin3].
        destruct (fsm r' events) as [[r'' out] l]. cbn [fst snd] in *.
        split; [exact Hfin|]. intros H3.
        destruct (Hfin3 (H3' H3)) as [Hs3 Hout]. split; [exact Hs3|].
        intros [Hin|Hin]%elem_of_app; [|by apply Hout].
        apply list_elem_of_fmap in Hin as (e0 & [= <-] & Hin).
        specialize (Heff H3). rewrite Forall_forall in Heff.
        by apply (Heff Shutdown).
      * cbn. split; [exact Hok|]. intros H3. split; [exact H3|].
        apply not_elem_of_nil.
    + destruct (handlers_ok r (EvServeFailed e) listen _ [] Hok eq_refl)
        as (Hok' & H3' & _).
      destruct (IH _ Hok') as [Hfin Hfin3].
      destruct (fsm (handleEventServeFailed r e) events) as [[r'' out] l].
      cbn [fst snd fmap list_fmap app] in *.
      split; [exact Hfin|]. intros H3. exact (Hfin3 (H3' H3)).
    + destruct (reload listen r nextSpec) as [[r' effects]|] eqn:Hh.
      * destruct (handlers_ok r (EvReload nextSpec) listen r' effects Hok Hh)
          as (Hok' & H3' & Heff).
        destruct (IH r' Hok') as [Hfin Hfin3].
        destruct (fsm r' events) as [[r'' out] l]. cbn [fst snd] in *.
        split; [exact Hfin|]. intros H3.
        destruct (Hfin3 (H3' H3)) as [Hs3 Hout]. split; [exact Hs3|].
        intros [Hin|Hin]%elem_of_app; [|by apply Hout].
        apply list_elem_of_fmap in Hin as (e0 & [= <-] & Hin).
        specialize (Heff H3). rewrite Forall_forall in Heff.
        by apply (Heff Shutdown).
      * cbn. split; [exact Hok|]. intros H3. split; [exact H3|].
        apply not_elem_of_nil.
    + cbn [fst snd]. split; [exact Hok|]. intros H3. split; [exact H3|].
      unfold handleEventClose. rewrite closeServer_http3 by done. cbn.
      intros Hin. repeat (apply elem_of_cons in Hin as [Hin|Hin]; [discriminate|]).
      by apply elem_of_nil in Hin.
Qed.

End EventLoop.

(** X15. Whatever events reach a new runtime, its status stays coherent: the
    state is never [closed] (not even after the close event, which leaves
    the state as it was), the error is empty unless the state is [failed],
    and a [running] state has a server. *)
Theorem status_stays_coherent {TracingSpec IPFilterSpec Rule : Type}
        `{EqDecision TracingSpec, EqDecision IPFilterSpec, EqDecision Rule}
        (sp : @Spec TracingSpec IPFilterSpec Rule)
        (events : list (event * option string)) :
  let r := (fsm (newRuntime sp) events).1.1 in
  state r ≠ stateClosed
  ∧ (state r ≠ stateFailed -> err r = errNil)
  ∧ (state r = stateRunning -> server r = true).
Proof.
  cbv zeta. apply (fsm_ok events (newRuntime sp)).
  unfold status_ok, newRuntime. cbn. repeat split; done.
Qed.

(** X16. Once an HTTP/3 server has been set, it stays set, and from then on
    no event makes the runtime call [Shutdown] on the HTTP/1 and HTTP/2
    server: [closeServer] closes the HTTP/3 server and returns. *)
Theorem http3_server_shadows_shutdown {TracingSpec IPFilterSpec Rule : Type}
        `{EqDecision TracingSpec, EqDecision IPFilterSpec, EqDecision Rule}
        (r : @runtime TracingSpec IPFilterSpec Rule)
        (events : list (event * option string)) :
  status_ok r -> server3 r = true ->
  server3 (fsm r events).1.1 = true
  ∧ Listener Shutdown ∉ (fsm r events).1.2.
Proof.
  intros Hok H3. exact (proj2 (fsm_ok events r Hok) H3).
Qed.

Lemma http3_server_shadows_shutdown_witness :
  Listener Shutdown
  ∉ (fsm demo_runtime3 [ (EvReload (Some demo_spec), None);
                         (EvReload (Some demo_spec_moved), None);
                         (EvClose, None) ]).1.2.
Proof.
  apply http3_server_shadows_shutdown; [|reflexivity].
  unfold status_ok, demo_runtime3. cbn. repeat split; done.
Defined.

Lemma startServer_outcome {TracingSpec IPFilterSpec Rule : Type}
      (listen : option string) (r : @runtime TracingSpec IPFilterSpec Rule)
      (sp : @Spec TracingSpec IPFilterSpec Rule) :
  spec r = Some sp ->
  ∃ r' tr,
    startServer listen r = Some (r', tr)
    ∧ startNum r' = u64 (startNum r + 1)
    ∧ spec r' = Some sp ∧ muxRules r' = muxRules r ∧ server r' = true
    ∧ existsb is_start tr = true ∧ existsb is_stop tr = false
    ∧ (∀ n, n ∈ serve_tags tr -> n = startNum r')
    ∧ (HTTP3 sp = true ∨ listen = None ->
       state r' = stateRunning ∧ err r' = errNil ∧ serve_tags tr = [startNum r'])
    ∧ (∀ e, HTTP3 sp = false -> listen = Some e ->
            state r' = stateFailed ∧ err r' = e ∧ serve_tags tr = []).
Proof.
  intros Hsp. unfold startServer. rewrite Hsp.
  destruct (HTTP3 sp) eqn:H3.
  - eexists _, _. split; [reflexivity|]. cbn.
    repeat (split; [done|]). split.
    + intros n ->%list_elem_of_singleton. done.
    + split; [done|]. intros e Hf. discriminate.
  - destruct listen as [e|].
    + eexists _, _. split; [reflexivity|]. cbn.
      repeat (split; [done|]). split.
      * intros n Hn. by apply elem_of_nil in Hn.
      * split; [intros [?|?]; discriminate|]. by intros e' _ [= <-].
    + eexists _, _. split; [reflexivity|]. cbn.
      repeat (split; [done|]). split.
      * intros n ->%list_elem_of_singleton. done.
      * split; [done|]. intros e _ Hf. discriminate.
Qed.

Ltac no_such_output :=
  let Hin := fresh "Hin" in
  intros Hin;
  repeat (apply elem_of_cons in Hin as [Hin|Hin]; [discriminate Hin|]);
  by apply elem_of_nil in Hin.

(** X17. The first reload event on a new runtime (what [Init] sends) starts
    the server with start number 1 and stops nothing. The runtime is
    [running] with no error when the spec asks for HTTP/3 or the port could be
    bound, and [failed] with the bind error otherwise; either way the loop
    goes on waiting for events. *)
Theorem first_reload_starts {TracingSpec IPFilterSpec Rule : Type}
        `{EqDecision TracingSpec, EqDecision IPFilterSpec, EqDecision Rule}
        (sp nxt : @Spec TracingSpec IPFilterSpec Rule) (listen : option string) :
  let run := fsm (newRuntime sp) [(EvReload (Some nxt), listen)] in
  run.2 = Waiting
  ∧ spec run.1.1 = Some nxt ∧ muxRules run.1.1 = Some nxt
  ∧ startNum run.1.1 = 1 ∧ server run.1.1 = true
  ∧ (Listener Shutdown ∉ run.1.2) ∧ (Listener Shutdown3 ∉ run.1.2)
  ∧ (HTTP3 nxt = true ∨ listen = None ->
     state run.1.1 = stateRunning ∧ err run.1.1 = errNil)
  ∧ (∀ e, HTTP3 nxt = false -> listen = Some e ->
          state run.1.1 = stateFailed ∧ err run.1.1 = e).
Proof.
  cbv zeta. cbn [fsm]. unfold reload, newRuntime. cbn [spec].
  unfold startServer. cbn [setSpec spec startNum].
  change (u64 (0 + 1)) with 1.
  destruct (HTTP3 nxt) eqn:H3.
  - cbn. repeat (split; [done|]).
    split; [no_such_output|]. split; [no_such_output|].
    split; [done|]. intros e Hf. discriminate.
  - destruct listen as [e|]; cbn.
    + repeat (split; [done|]).
      split; [no_such_output|]. split; [no_such_output|].
      split; [intros [?|?]; discriminate|]. by intros e' _ [= <-].
    + repeat (split; [done|]).
      split; [no_such_output|]. split; [no_such_output|].
      split; [done|]. intros e _ Hf. discriminate.
Qed.

Lemma first_reload_starts_witness :
  state (fsm (newRuntime demo_spec) [(EvReload (Some demo_spec), None)]).1.1
  = stateRunning
  ∧ state (fsm (newRuntime demo_spec)
             [(EvReload (Some demo_spec), Some "address already in use"%string)]).1.1
    = stateFailed.
Proof.
  split.
  - apply (first_reload_starts demo_spec demo_spec None). by right.
  - apply (first_reload_starts demo_spec demo_spec
             (Some "address already in use"%string)) with
      (e := "address already in use"%string); reflexivity.
Defined.

(** X18. A check event retries the start exactly when the runtime is
    [failed]: the retry takes a new start number and ends [running] with the
    error cleared if the port can be bound (or the spec asks for HTTP/3),
    [failed] with the new bind error if not; in any other state the check
    event changes nothing and starts nothing. *)
Theorem checkFailed_retries {TracingSpec IPFilterSpec Rule : Type}
        (listen : option string)
        (r : @runtime TracingSpec IPFilterSpec Rule)
        (sp : @Spec TracingSpec IPFilterSpec Rule) :
  spec r = Some sp ->
  (state r = stateFailed ->
   ∃ r' tr,
     handleEventCheckFailed listen r = Some (r', tr)
     ∧ startNum r' = u64 (startNum r + 1)
     ∧ existsb is_start tr = true ∧ existsb is_stop tr = false
     ∧ (HTTP3 sp = true ∨ listen = None ->
        state r' = stateRunning ∧ err r' = errNil)
     ∧ (∀ e, HTTP3 sp = false -> listen = Some e ->
             state r' = stateFailed ∧ err r' = e))
  ∧ (state r ≠ stateFailed -> handleEventCheckFailed listen r = Some (r, [])).
Proof.
  intros Hsp. unfold handleEventCheckFailed. split.
  - intros ->.
    destruct (startServer_outcome listen r sp Hsp)
      as (r' & tr & Hs & Hn & _ & _ & _ & Hstart & Hstop & _ & Hrun & Hfail).
    exists r', tr. split; [exact Hs|]. split; [exact Hn|].
    split; [exact Hstart|]. split; [exact Hstop|]. split.
    + intros Hc. destruct (Hrun Hc) as (? & ? & _). done.
    + intros e H3 Hl. destruct (Hfail e H3 Hl) as (? & ? & _). done.
  - intros Hne. by destruct (state r).
Qed.

Lemma checkFailed_retries_witness :
  ∃ r' tr, handleEventCheckFailed None demo_failed = Some (r', tr)
           ∧ state r' = stateRunning ∧ err r' = errNil ∧ startNum r' = 2.
Proof.
  destruct (proj1 (checkFailed_retries None demo_failed demo_spec eq_refl) eq_refl)
    as (r' & tr & Hh & Hn & _ & _ & Hrun & _).
  exists r', tr. split; [exact Hh|].
  destruct (Hrun (or_intror eq_refl)) as [Hst He].
  split; [exact Hst|]. split; [exact He|]. rewrite Hn. reflexivity.
Defined.

(** X19. After a restart, a [serveFailed] event from the server that was
    replaced is ignored, and one from the server now in place marks the
    runtime [failed]: starting twice in a row (as a restart or a retry does)
    tags the two servers with different start numbers, as long as the uint64
    counter does not wrap. *)
Theorem replaced_server_events_ignored {TracingSpec IPFilterSpec Rule : Type}
        (listen1 listen2 : option string)
        (r : @runtime TracingSpec IPFilterSpec Rule)
        (sp : @Spec TracingSpec IPFilterSpec Rule) :
  spec r = Some sp -> 0 <= startNum r < 2 ^ 64 - 2 ->
  ∃ r1 tr1 r2 tr2,
    startServer listen1 r = Some (r1, tr1)
    ∧ startServer listen2 r1 = Some (r2, tr2)
    ∧ (∀ n e, n ∈ serve_tags tr1 ->
         handleEventServeFailed r2 {| ev_startNum := n; ev_err := e |} = r2)
    ∧ (∀ n e, n ∈ serve_tags tr2 ->
         state (handleEventServeFailed r2 {| ev_startNum := n; ev_err := e |})
         = stateFailed
         ∧ err (handleEventServeFailed r2 {| ev_startNum := n; ev_err := e |})
           = default errNil e).
Proof.
  intros Hsp Hrange.
  destruct (startServer_outcome listen1 r sp Hsp)
    as (r1 & tr1 & Hs1 & Hn1 & Hsp1 & _ & _ & _ & _ & Htag1 & _).
  destruct (startServer_outcome listen2 r1 sp Hsp1)
    as (r2 & tr2 & Hs2 & Hn2 & _ & _ & _ & _ & _ & Htag2 & _).
  exists r1, tr1, r2, tr2. split; [exact Hs1|]. split; [exact Hs2|].
  assert (H1 : startNum r1 = startNum r + 1)
    by (rewrite Hn1; unfold u64, wrap; apply Z.mod_small; lia).
  assert (H2 : startNum r2 = startNum r + 2)
    by (rewrite Hn2, H1; unfold u64, wrap; rewrite Z.mod_small; lia).
  split.
  - intros n e Hn%Htag1. unfold handleEventServeFailed. cbn [ev_startNum].
    destruct (Z.ltb_spec n (startNum r2)); [reflexivity | lia].
  - intros n e Hn%Htag2. unfold handleEventServeFailed. cbn [ev_startNum].
    destruct (Z.ltb_spec n (startNum r2)); [lia | done].
Qed.

Lemma replaced_server_events_ignored_witness :
  ∃ r1 tr1 r2 tr2,
    startServer None demo_runtime = Some (r1, tr1)
    ∧ startServer None r1 = Some (r2, tr2)
    ∧ handleEventServeFailed r2 {| ev_startNum := 2; ev_err := None |} = r2
    ∧ state (handleEventServeFailed r2 {| ev_startNum := 3; ev_err := None |})
      = stateFailed.
Proof.
  destruct (replaced_server_events_ignored None None demo_runtime demo_spec
              eq_refl) as (r1 & tr1 & r2 & tr2 & Hs1 & Hs2 & Hold & Hnew);
    [cbn; lia|].
  exists r1, tr1, r2, tr2. split; [exact Hs1|]. split; [exact Hs2|].
  vm_compute in Hs1. injection Hs1 as <- <-.
  vm_compute in Hs2. injection Hs2 as <- <-.
  split.
  - apply Hold. cbn. by left.
  - apply Hnew. cbn. by left.
Defined.

End HttpServerFacts.

Module UdpFacts.
Import Udp.

Lemma Write_capacity (s : session) (buf : Packet) (w : wake) :
  (length (writeBuf s) <= writeBufCap)%nat ->
  (length (writeBuf (Write s buf w).1) <= writeBufCap)%nat.
Proof.
  intros Hcap. unfold Write.
  destruct (Nat.ltb_spec (length (writeBuf s)) writeBufCap) as [Hlt|Hge].
  - cbn. rewrite length_app. simpl. lia.
  - destruct w; cbn; try exact Hcap.
    rewrite length_app. simpl.
    destruct (writeBuf s) as [|p l]; simpl in *; [unfold writeBufCap in *; lia|].
    lia.
Qed.

Lemma Write_returns (s : session) (buf : Packet) (w : wake) :
  ret (Write s buf w).2 = None ↔
  (length (writeBuf s) < writeBufCap)%nat ∨ w ≠ TimerFired.
Proof.
  unfold Write.
  destruct (Nat.ltb_spec (length (writeBuf s)) writeBufCap) as [Hlt|Hge].
  - cbn. split; [by left | done].
  - destruct w; cbn; split; try done; try (by right).
    intros [?|?]; [lia | done].
Qed.

(** C8, at the gate of the example (upstream idle timeout 1000 ms,
    downstream idle timeout 2000 ms): the session that [getSession] creates
    holds the downstream timeout in [upstreamIdleTimeout], and a [Write] on a
    full channel arms a timer of 2 * 10^15 ns, which is neither the
    configured second nor sixty seconds; when it fires [Write] returns the
    timeout error and releases the packet. *)
Theorem Write_timer_at_demo_spec :
  let s := createSession demo_spec "10.0.0.1:5000" "10.0.0.2:53" in
  let full := with_writeBuf s (repeat demo_packet 512) in
  upstreamIdleTimeout s = DownstreamIdleTimeout demo_spec * Millisecond
  ∧ Write full demo_packet TimerFired
    = (full, {| ret := Some "write data to channel timeout"%string;
                released := true;
                timer := Some 2000000000000000 |})
  ∧ timer (Write full demo_packet TimerFired).2
    ≠ Some (UpstreamIdleTimeout demo_spec * Millisecond)
  ∧ UpstreamIdleTimeout demo_spec * Millisecond = 1000000000
  ∧ 60 * Second = 60000000000.
Proof.
  cbv zeta. split; [reflexivity|]. split; [vm_compute; reflexivity|].
  split; [vm_compute; discriminate|]. split; reflexivity.
Qed.

(** X20. [getSession] hands out live sessions only. A session of the
    address that is not closed is returned as it is and the table is left
    alone; otherwise a new session replaces what the table had for the
    address. The session returned is not closed and is the one the table now
    holds for the address; the entries of other addresses never change; and
    on an error the table is left as it was. *)
Theorem getSession_live (spec : Spec) (up : string + string)
        (sessions : gmap string session) (addr : string) :
  let r := getSession spec up sessions addr in
  (∀ s, r.2 = inl s -> stopped s = false ∧ r.1 !! addr = Some s)
  ∧ (∀ other, other ≠ addr -> r.1 !! other = sessions !! other)
  ∧ (∀ s, sessions !! addr = Some s -> stopped s = false ->
          r = (sessions, inl s))
  ∧ (∀ e, r.2 = inr e -> r.1 = sessions ∧ up = inr e).
Proof.
  cbv zeta. unfold getSession.
  destruct (sessions !! addr) as [s0|] eqn:Hs.
  - destruct (stopped s0) eqn:Hst; cbn [negb].
    + destruct up as [a|e]; cbn [fst snd].
      * split; [intros s [= <-]; split; [done | apply lookup_insert_eq]|].
        split; [intros other Hne; by apply lookup_insert_ne|].
        split; [intros s [= <-]; congruence|]. intros e; discriminate.
      * split; [intros s; discriminate|]. split; [done|].
        split; [intros s [= <-]; congruence|]. by intros e' [= <-].
    + cbn [fst snd]. split; [by intros s [= <-]|]. split; [done|].
      split; [by intros s [= <-] _|]. intros e; discriminate.
  - destruct up as [a|e]; cbn [fst snd].
    + split; [intros s [= <-]; split; [done | apply lookup_insert_eq]|].
      split; [intros other Hne; by apply lookup_insert_ne|].
      split; [intros s; discriminate|]. intros e; discriminate.
    + split; [intros s; discriminate|]. split; [done|].
      split; [intros s; discriminate|]. by intros e' [= <-].
Qed.

Lemma getSession_live_witness :
  let closed := (Close (createSession demo_spec "10.0.0.1:5000" "10.0.0.2:53")).1 in
  let r := getSession demo_spec (inl "10.0.0.3:53"%string)
                      {[ "10.0.0.1:5000"%string := closed ]} "10.0.0.1:5000" in
  r.2 = inl (createSession demo_spec "10.0.0.1:5000" "10.0.0.3:53")
  ∧ r.1 !! "10.0.0.1:5000"%string
    = Some (createSession demo_spec "10.0.0.1:5000" "10.0.0.3:53").
Proof.
  cbv zeta.
  assert (Hr : (getSession demo_spec (inl "10.0.0.3:53"%string)
                  {[ "10.0.0.1:5000"%string :=
                       (Close (createSession demo_spec "10.0.0.1:5000"
                                             "10.0.0.2:53")).1 ]}
                  "10.0.0.1:5000").2
               = inl (createSession demo_spec "10.0.0.1:5000" "10.0.0.3:53")).
  { unfold getSession. rewrite lookup_singleton_eq. reflexivity. }
  split; [exact Hr|].
  exact (proj2 (proj1 (getSession_live demo_spec (inl "10.0.0.3:53"%string) _
                         "10.0.0.1:5000") _ Hr)).
Defined.

(** X21. [cleanup] removes the closed sessions and nothing else: a session
    is in the table afterwards exactly when it was there and is not closed.
    So a session that was closed is gone after the sweep, while the sweep
    treats every other address as it would have without that [Close]. *)
Theorem cleanup_sweeps_closed (sessions : gmap string session)
        (key k : string) (s : session) :
  (cleanup sessions !! k = Some s
   ↔ sessions !! k = Some s ∧ stopped s = false)
  ∧ cleanup (closeSession key sessions) !! key = None
  ∧ (k ≠ key ->
     cleanup (closeSession key sessions) !! k = cleanup sessions !! k).
Proof.
  unfold cleanup, closeSession. split; [|split].
  - by rewrite map_lookup_filter_Some.
  - apply map_lookup_filter_None. right. intros s' Hs'.
    rewrite lookup_alter_eq in Hs'.
    destruct (sessions !! key) as [s0|]; [|discriminate].
    cbn in Hs'. injection Hs' as <-. cbn [snd]. unfold Close.
    destruct (stopped s0) eqn:Hst; cbn; congruence.
  - intros Hne. apply option_eq. intros s'.
    rewrite !map_lookup_filter_Some, lookup_alter_ne by done. done.
Qed.

(** X22. The connection pool of the one-shot mode makes [getUpstreamConn]
    dial an upstream once: after a call that dialled a connection and pooled
    it, a call that is given the same server address returns that connection
    without resolving or dialling, and leaves the pool as it is. Without a
    pool (as [getSession] calls it) every successful call dials. *)
Theorem upstream_conn_pooled (net net' : network) (c c' : connPool)
        (conn : Conn) (addr : string) :
  (getUpstreamConn net (Some c) = (Some c', Got conn addr, true) ->
   Next net' = Some addr ->
   getUpstreamConn net' (Some c') = (Some c', Got conn addr, false))
  ∧ (∀ conn' addr' dialled,
       getUpstreamConn net None = (None, Got conn' addr', dialled) ->
       dialled = true ∧ Dial net addr' = Some conn').
Proof.
  split.
  - unfold getUpstreamConn.
    destruct (Next net) as [a|]; [|discriminate].
    destruct (get (Some c) a) as [conn0|] eqn:Hg; [discriminate|].
    destruct (Resolve net a); cbn [negb]; [|discriminate].
    destruct (Dial net a) as [conn1|]; [|discriminate].
    unfold put. destruct (pool c) as [m|] eqn:Hp; [|discriminate].
    intros [= <- <- <-] ->. cbn [get pool].
    by rewrite lookup_insert_eq.
  - intros conn' addr' dialled. unfold getUpstreamConn.
    destruct (Next net) as [a|]; [|discriminate].
    destruct (Resolve net a); cbn [negb]; [|discriminate].
    destruct (Dial net a) as [conn1|] eqn:Hd; [|discriminate].
    by intros [= <- <- <-].
Qed.

Lemma upstream_conn_pooled_witness :
  let net := {| Next := Some "10.0.0.2:53"%string; Resolve := fun _ => true;
                Dial := fun _ => Some 7 |} in
  let net' := {| Next := Some "10.0.0.2:53"%string; Resolve := fun _ => false;
                 Dial := fun _ => None |} in
  ∃ c', getUpstreamConn net newConnPool = (Some c', Got 7 "10.0.0.2:53", true)
        ∧ getUpstreamConn net' (Some c') = (Some c', Got 7 "10.0.0.2:53", false).
Proof.
  cbv zeta. exists {| pool := Some {[ "10.0.0.2:53"%string := 7 ]} |}.
  split; [reflexivity|].
  apply (proj1 (upstream_conn_pooled
                  {| Next := Some "10.0.0.2:53"%string; Resolve := fun _ => true;
                     Dial := fun _ => Some 7 |}
                  {| Next := Some "10.0.0.2:53"%string; Resolve := fun _ => false;
                     Dial := fun _ => None |}
                  {| pool := Some ∅ |} _ 7 "10.0.0.2:53"));
    reflexivity.
Defined.

End UdpFacts.

Module HeaderToJSONFacts.
Import HeaderToJSON.
Import PrimFloat.
Local Open Scope string_scope.

Lemma written_not_expected : written_body ≠ expected_body.
Proof.
  intros Heq.
  assert (H : written_body !! "int-value" = expected_body !! "int-value")
    by (by rewrite Heq).
  vm_compute in H. discriminate H.
Qed.

(** C9, on the request of the scenario: [Handle] returns the empty result
    and rewrites the body to the original fields merged with the mapped
    headers, each header value written as a JSON string ("123", "123.0",
    "true", "null"), which is not the typed body that the scenario (and the
    filter's test) expects. *)
Theorem Handle_scenario :
  Handle (fun lastResult => lastResult) (init test_spec) test_request
  = Returned "" (SetBody test_request (Doc (JObject written_body)))
  ∧ written_body !! "int-value" = Some (JString "123")
  ∧ written_body !! "float-value" = Some (JString "123.0")
  ∧ written_body !! "bool-value" = Some (JString "true")
  ∧ written_body !! "null-value" = Some (JString "null")
  ∧ written_body ≠ expected_body.
Proof.
  split; [vm_compute; reflexivity|].
  repeat (split; [vm_compute; reflexivity|]).
  exact written_not_expected.
Qed.

(** ** The headers that are written *)

Lemma collect_spec (h : HeaderToJSON) (req : request) :
  (∀ js v, collect h req !! js = Some v ->
     ∃ hdr, present h req hdr js ∧ v = JString (Get (header req) hdr))
  ∧ (∀ hdr js, present h req hdr js -> is_Some (collect h req !! js)).
Proof.
  unfold collect, present.
  apply (map_fold_weak_ind
           (fun (acc : gmap string json) (m : gmap string string) =>
              (∀ js v, acc !! js = Some v ->
                 ∃ hdr, (m !! hdr = Some js ∧ Get (header req) hdr ≠ "")
                        ∧ v = JString (Get (header req) hdr))
              ∧ (∀ hdr js, m !! hdr = Some js ∧ Get (header req) hdr ≠ "" ->
                           is_Some (acc !! js)))).
  - split.
    + intros js v Hv. by rewrite lookup_empty in Hv.
    + intros hdr js [Hm _]. by rewrite lookup_empty in Hm.
  - intros hdr js m acc Hfresh [Hsound Hcompl]. cbv zeta.
    destruct (String.eqb_spec (Get (header req) hdr) "") as [Hempty|Hval].
    + split.
      * intros js' v Hv. destruct (Hsound js' v Hv) as (hdr' & [Hm Hg] & ->).
        exists hdr'. split; [|done]. split; [|done].
        rewrite lookup_insert_ne; [done|]. intros ->. congruence.
      * intros hdr' js' [Hm Hg].
        apply lookup_insert_Some in Hm as [[-> ->]|[Hne Hm]]; [done|].
        by apply (Hcompl hdr').
    + split.
      * intros js' v Hv.
        apply lookup_insert_Some in Hv as [[-> <-]|[Hne Hv]].
        -- exists hdr. by rewrite lookup_insert_eq.
        -- destruct (Hsound js' v Hv) as (hdr' & [Hm Hg] & ->).
           exists hdr'. split; [|done]. split; [|done].
           rewrite lookup_insert_ne; [done|]. intros ->. congruence.
      * intros hdr' js' [Hm Hg].
        apply lookup_insert_Some in Hm as [[-> ->]|[Hne Hm]].
        -- rewrite lookup_insert_eq. eauto.
        -- destruct (decide (js = js')) as [->|Hjs].
           ++ rewrite lookup_insert_eq. eauto.
           ++ rewrite lookup_insert_ne by done. by apply (Hcompl hdr').
Qed.

Lemma collect_nonempty (h : HeaderToJSON) (req : request) hdr js :
  present h req hdr js -> size (collect h req) ≠ 0%nat.
Proof.
  intros Hp Hsz. apply map_size_empty_iff in Hsz.
  destruct (proj2 (collect_spec h req) hdr js Hp) as [v Hv].
  by rewrite Hsz, lookup_empty in Hv.
Qed.

Lemma collect_empty (h : HeaderToJSON) (req : request) :
  (∀ hdr js, ¬ present h req hdr js) -> size (collect h req) = 0%nat.
Proof.
  intros Hnone. apply map_size_empty_iff, map_empty. intros js.
  destruct (collect h req !! js) as [v|] eqn:Hv; [|done].
  destruct (proj1 (collect_spec h req) js v Hv) as (hdr & Hp & _).
  by apply Hnone in Hp.
Qed.

Lemma merge_merged (h : HeaderToJSON) (req : request) (m : gmap string json) :
  merged h req m (merge m (collect h req)).
Proof.
  destruct (collect_spec h req) as [Hsound Hcompl].
  unfold merged, merge. split; [|split].
  - intros k v [Hc|[Hnone Hm]]%lookup_union_Some_raw.
    + left. by apply Hsound.
    + right. split; [done|]. intros hdr Hp.
      destruct (Hcompl hdr k Hp) as [v' Hv']. congruence.
  - intros hdr k Hp. destruct (Hcompl hdr k Hp) as [v Hv].
    exists v. apply lookup_union_Some_raw. by left.
  - intros k v Hm Hnone. apply lookup_union_Some_raw. right. split; [|done].
    destruct (collect h req !! k) as [v'|] eqn:Hv; [|done].
    destruct (Hsound k v' Hv) as (hdr & Hp & _). by apply Hnone in Hp.
Qed.

(** ** What [json.Marshal] encodes *)

Lemma supported_object (m : gmap string json) :
  supported (JObject m) = true
  ↔ ∀ k v, m !! k = Some v -> supported v = true.
Proof.
  cbn [supported].
  apply (map_fold_weak_ind
           (fun (acc : bool) (m : gmap string json) =>
              acc = true ↔ ∀ k v, m !! k = Some v -> supported v = true)).
  - split; [|done]. intros _ k v Hv. by rewrite lookup_empty in Hv.
  - intros k x m' acc Hfresh IH. rewrite andb_true_iff, IH. split.
    + intros [Hx Hm] k' v' [[-> ->]|[_ Hv]]%lookup_insert_Some; [done|].
      by apply (Hm k').
    + intros Hall. split.
      * apply (Hall k). by rewrite lookup_insert_eq.
      * intros k' v' Hv. apply (Hall k').
        rewrite lookup_insert_ne; [done|]. intros ->. congruence.
Qed.

Lemma supported_merge (h : HeaderToJSON) (req : request)
      (m : gmap string json) :
  supported (JObject m) = true ->
  supported (JObject (merge m (collect h req))) = true.
Proof.
  rewrite !supported_object. intros Hm k v.
  unfold merge. intros [Hc|[_ Hv]]%lookup_union_Some_raw.
  - destruct (proj1 (collect_spec h req) k v Hc) as (hdr & _ & ->). done.
  - by apply (Hm k).
Qed.

Lemma Marshal_merge (h : HeaderToJSON) (req : request)
      (m : gmap string json) :
  supported (JObject m) = true ->
  Marshal (JObject (merge m (collect h req)))
  = Some (Doc (JObject (merge m (collect h req)))).
Proof. intros Hm. unfold Marshal. by rewrite supported_merge. Qed.

(** X23. [handle] returns the empty result or one of the two results that
    the filter declares, and never changes the headers of the request. A
    result that is not empty comes only after [io.ReadAll] has read the
    body, and no new body is set on these paths: the request goes on with
    its body stream consumed, not as it came. [bodyReadErr] is returned
    exactly for a failed read (with a mapped header present). *)
Theorem handle_results (h : HeaderToJSON) (req req' : request) (result : string) :
  handle h req = Returned result req' ->
  (result = "" ∨ result ∈ Results)
  ∧ header req' = header req
  ∧ (result ≠ "" -> size (collect h req) ≠ 0%nat ∧ req' = consumed req)
  ∧ (result = resultBodyReadErr
     ↔ size (collect h req) ≠ 0%nat ∧ (ReadAll (body req)).1 = None).
Proof.
  unfold handle. cbv zeta. fold (consumed req). case_decide as Hsz.
  { intros [= <- <-]. split; [by left|]. split; [done|]. split; [done|].
    split; [discriminate | intros [? _]; done]. }
  assert (Herr1 : resultJSONEncodeDecodeErr ∈ Results) by (apply list_elem_of_here).
  assert (Herr2 : resultBodyReadErr ∈ Results)
    by (apply list_elem_of_further, list_elem_of_here).
  destruct (ReadAll (body req)).1 as [b|].
  2:{ intros [= <- <-]. split; [by right|]. split; [done|]. split; [done|].
      split; done. }
  match goal with
  | |- _ -> ?G =>
      assert (Hgood : ∀ d, Returned "" (SetBody (consumed req) d)
                           = Returned result req' -> G);
      [| assert (Hbad : Returned resultJSONEncodeDecodeErr (consumed req)
                        = Returned result req' -> G) ]
  end.
  { intros d [= <- <-]. split; [by left|]. split; [done|]. split; [done|].
    split; [discriminate | intros [_ ?]; discriminate]. }
  { intros [= <- <-]. split; [by right|]. split; [done|]. split; [done|].
    split; [discriminate | intros [_ ?]; discriminate]. }
  assert (Hmap : ∀ bodyMap,
            handleBodyMap (consumed req) bodyMap (collect h req)
            = Returned result req' ->
            (result = "" ∨ result ∈ Results)
            ∧ header req' = header req
            ∧ (result ≠ "" -> size (collect h req) ≠ 0%nat ∧ req' = consumed req)
            ∧ (result = resultBodyReadErr
               ↔ size (collect h req) ≠ 0%nat ∧ Some b = None)).
  { intros [m|]; cbn [handleBodyMap]; [|discriminate].
    destruct (Marshal _) as [d|]; [apply Hgood | apply Hbad]. }
  destruct b as [|v|]; [apply Hmap| |].
  - destruct (decodeJSON (Doc v)) as [bodyMap|]; [apply Hmap|].
    destruct (decodeArrayJSON (Doc v)) as [[elements|]|]; cbn [handleBodyArray].
    + destruct (mapM (fun m => m) elements); [|discriminate].
      destruct (Marshal _) as [d|]; [apply Hgood | apply Hbad].
    + apply Hgood.
    + apply Hbad.
  - cbn. apply Hbad.
Qed.

Lemma handle_results_witness :
  handle (init test_spec) (SetBody test_request Malformed)
  = Returned resultJSONEncodeDecodeErr (SetBody test_request Empty)
  ∧ resultJSONEncodeDecodeErr ∈ Results
  ∧ consumed (SetBody test_request Malformed) = SetBody test_request Empty.
Proof.
  assert (Hr : handle (init test_spec) (SetBody test_request Malformed)
               = Returned resultJSONEncodeDecodeErr (SetBody test_request Empty))
    by (vm_compute; reflexivity).
  split; [exact Hr|].
  destruct (handle_results _ _ _ _ Hr) as ([Hempty|Hin] & _ & Hread & _);
    [discriminate|].
  split; [exact Hin|]. symmetry. apply Hread. discriminate.
Defined.

(** X24. When the request carries none of the mapped headers, [handle]
    returns the empty result and the very request it was given, without
    looking at the body: a body that cannot be read or is not JSON goes
    through. *)
Theorem handle_without_headers (h : HeaderToJSON) (req : request) :
  (∀ hdr js, headerMap h !! hdr = Some js -> Get (header req) hdr = "") ->
  handle h req = Returned "" req.
Proof.
  intros Hnone. unfold handle. rewrite decide_True; [done|].
  apply collect_empty. intros hdr js [Hm Hg]. by apply Hg, (Hnone hdr js).
Qed.

Lemma handle_without_headers_witness :
  handle (init test_spec) {| header := Add ∅ "content-type" "text/plain";
                             body := ReadFails (Reads Empty) |}
  = Returned "" {| header := Add ∅ "content-type" "text/plain";
                   body := ReadFails (Reads Empty) |}.
Proof.
  apply handle_without_headers. intros hdr js Hm.
  assert (Hkeys : hdr ∈ ["X-Int"; "X-Float"; "X-String"; "X-Bool"; "X-Null"]).
  { assert (Hdom : dom (headerMap (init test_spec))
                   = list_to_set ["X-Int"; "X-Float"; "X-String"; "X-Bool"; "X-Null"]).
    { apply (bool_decide_unpack _). vm_compute. exact I. }
    apply (elem_of_list_to_set (C := gset string)). rewrite <- Hdom.
    apply elem_of_dom. eauto. }
  repeat (apply elem_of_cons in Hkeys as [->|Hkeys]; [vm_compute; reflexivity|]).
  by apply elem_of_nil in Hkeys.
Defined.

(** X25. With a body that decodes to a JSON object and at least one mapped
    header present, [handle] returns the empty result and sets as the new
    body the encoding of the object with the mapped headers written over
    it: each present mapped header gives its field, as a JSON string
    holding the header value, and the fields that no present header is
    mapped to keep their decoded values. Numbers are compared as the
    [float64]s they were decoded to: the body is written anew, and a number
    literal that is no [float64] does not come back as it was spelled. The
    headers of the request are not changed. (The decoded object holds no NaN
    or infinity, as no JSON text decodes to one.) *)
Theorem handle_object_body (h : HeaderToJSON) (req : request)
        (m : gmap string json) (hdr js : string) :
  body req = Reads (Doc (JObject m)) -> supported (JObject m) = true ->
  present h req hdr js ->
  ∃ b, handle h req
       = Returned "" {| header := header req; body := Reads (Doc (JObject b)) |}
       ∧ merged h req m b.
Proof.
  intros Hbody Hsup Hp. exists (merge m (collect h req)).
  split; [|apply merge_merged].
  unfold handle. rewrite decide_False by (by eapply collect_nonempty).
  rewrite Hbody. cbn [ReadAll fst snd decodeJSON handleBodyMap].
  rewrite Marshal_merge by done. reflexivity.
Qed.

Lemma handle_object_body_witness :
  ∃ b, handle (init test_spec) test_request
       = Returned "" {| header := header test_request;
                        body := Reads (Doc (JObject b)) |}
       ∧ b !! "topic" = Some (JString "log").
Proof.
  destruct (handle_object_body (init test_spec) test_request test_body
              "X-Int" "int-value" eq_refl) as (b & Hh & _ & _ & Hkeep).
  { vm_compute. reflexivity. }
  { split; [vm_compute; reflexivity | vm_compute; discriminate]. }
  exists b. split; [exact Hh|]. apply Hkeep; [vm_compute; reflexivity|].
  intros hdr [Hm _].
  assert (Hvals : "topic" ∈ (map_to_list (headerMap (init test_spec))).*2).
  { apply list_elem_of_fmap. exists (hdr, "topic"). split; [done|].
    by apply elem_of_map_to_list. }
  vm_compute in Hvals.
  repeat (apply elem_of_cons in Hvals as [Hvals|Hvals]; [discriminate Hvals|]).
  by apply elem_of_nil in Hvals.
Defined.

(** X26. With a body that decodes to a JSON array of objects and at least
    one mapped header present, [handle] returns the empty result and sets as
    the new body the encoding of the array of the same length in which every
    object has the mapped headers written over it, as for a single object:
    the other fields keep their decoded values, numbers as [float64]s. *)
Theorem handle_array_body (h : HeaderToJSON) (req : request)
        (ms : list (gmap string json)) (hdr js : string) :
  body req = Reads (Doc (JArray (JObject <$> ms))) ->
  supported (JArray (JObject <$> ms)) = true ->
  present h req hdr js ->
  ∃ bs, handle h req
        = Returned "" {| header := header req;
                         body := Reads (Doc (JArray (JObject <$> bs))) |}
        ∧ length bs = length ms
        ∧ ∀ (i : nat) m b, ms !! i = Some m -> bs !! i = Some b -> merged h req m b.
Proof.
  intros Hbody Hsup Hp. exists ((fun m => merge m (collect h req)) <$> ms).
  split; [|split].
  - unfold handle. rewrite decide_False by (by eapply collect_nonempty).
    rewrite Hbody. cbn [ReadAll fst snd decodeJSON decodeArrayJSON].
    assert (Hdec : mapM decodeElement (JObject <$> ms) = Some (Some <$> ms)).
    { apply mapM_Some. clear. induction ms; cbn; constructor; done. }
    rewrite Hdec. cbn [fmap option_fmap option_map handleBodyArray].
    assert (Hid : mapM (fun m : option (gmap string json) => m) (Some <$> ms)
                  = Some ms).
    { apply mapM_Some. clear. induction ms; cbn; constructor; done. }
    rewrite Hid.
    assert (Hout : map (fun m => JObject (merge m (collect h req))) ms
                   = JObject <$> ((fun m => merge m (collect h req)) <$> ms)).
    { rewrite <- list_fmap_compose. reflexivity. }
    rewrite Hout.
    assert (Hm : supported
                   (JArray (JObject <$> ((fun m => merge m (collect h req)) <$> ms)))
                 = true).
    { clear Hbody Hdec Hid Hout. cbn [supported] in *.
      induction ms as [|m ms IH]; [reflexivity|].
      cbn [fmap list_fmap forallb] in *.
      apply andb_true_iff in Hsup as [Hm Hms]. apply andb_true_iff. split.
      - by apply supported_merge.
      - by apply IH. }
    unfold Marshal. rewrite Hm. reflexivity.
  - apply length_fmap.
  - intros i m b Hm Hb. rewrite list_lookup_fmap, Hm in Hb.
    injection Hb as <-. apply merge_merged.
Qed.

Lemma handle_array_body_witness :
  ∃ bs, handle (init test_spec)
               (SetBody test_request (Doc (JArray [JObject test_body; JObject ∅])))
        = Returned "" {| header := header test_request;
                         body := Reads (Doc (JArray (JObject <$> bs))) |}
        ∧ length bs = 2%nat.
Proof.
  destruct (handle_array_body (init test_spec)
              (SetBody test_request (Doc (JArray [JObject test_body; JObject ∅])))
              [test_body; ∅] "X-Int" "int-value" eq_refl)
    as (bs & Hh & Hlen & _).
  { vm_compute. reflexivity. }
  { split; [vm_compute; reflexivity | vm_compute; discriminate]. }
  exists bs. split; [exact Hh | exact Hlen].
Defined.

(** X27. With a mapped header present, a body that cannot be read gives the
    result [bodyReadErr], and a body that is not JSON, a body that is a JSON
    number, string or boolean, and a JSON array holding an element that is
    neither an object nor [null] all give [jsonEncodeDecodeErr]. In each case
    the headers are as they came, but the body is not: [io.ReadAll] has
    consumed the stream and no new body is set, so after a decoding error
    the stream is at its end, and after a read error it is as the failed
    read left it. *)
Theorem handle_decode_errors (h : HeaderToJSON) (req : request) (hdr js : string) :
  present h req hdr js ->
  (∀ rest, body req = ReadFails rest ->
           handle h req
           = Returned resultBodyReadErr {| header := header req; body := rest |})
  ∧ (body req = Reads Malformed ->
     handle h req
     = Returned resultJSONEncodeDecodeErr
                {| header := header req; body := Reads Empty |})
  ∧ (∀ v, body req = Reads (Doc v) -> no_object v -> (∀ l, v ≠ JArray l) ->
          handle h req
          = Returned resultJSONEncodeDecodeErr
                     {| header := header req; body := Reads Empty |})
  ∧ (∀ l v, body req = Reads (Doc (JArray l)) -> v ∈ l -> no_object v ->
            handle h req
            = Returned resultJSONEncodeDecodeErr
                       {| header := header req; body := Reads Empty |}).
Proof.
  intros Hp. unfold handle. rewrite decide_False by (by eapply collect_nonempty).
  split; [by intros rest ->|]. split; [by intros ->|]. split.
  - intros v -> Hno Harr. destruct v; cbn in Hno; try done.
    by destruct (Harr l).
  - intros l v -> Hin Hno. cbn [ReadAll fst snd decodeJSON decodeArrayJSON].
    assert (Hdec : mapM decodeElement l = None).
    { apply mapM_None. apply Exists_exists. exists v. split; [done|].
      by destruct v. }
    rewrite Hdec. reflexivity.
Qed.

Lemma handle_decode_errors_witness :
  handle (init test_spec) (SetBody test_request (Doc (JArray [JNumber 1%float])))
  = Returned resultJSONEncodeDecodeErr (SetBody test_request Empty).
Proof.
  assert (Hp : present (init test_spec)
                 (SetBody test_request (Doc (JArray [JNumber 1%float])))
                 "X-Int" "int-value")
    by (split; [vm_compute; reflexivity | vm_compute; discriminate]).
  apply (proj2 (proj2 (proj2
           (handle_decode_errors (init test_spec)
              (SetBody test_request (Doc (JArray [JNumber 1%float])))
              "X-Int" "int-value" Hp))) [JNumber 1%float] (JNumber 1%float));
    [reflexivity | by left | exact I].
Defined.

End HeaderToJSONFacts.

Module HttpStatFacts.
Import HttpStat.


Lemma u64_small x : 0 <= x < 2 ^ 64 -> u64 x = x.
Proof. intros H. unfold u64, wrap. apply Z.mod_small. exact H. Qed.











(** ** Counters and sizes *)

Lemma u64_add_l a b : u64 (u64 a + b) = u64 (a + b).
Proof. unfold u64, wrap. apply Zplus_mod_idemp_l. Qed.

Lemma Stat_counters hs m :
  0 <= count hs -> count hs + 1 < 2 ^ 64 -> 0 <= errCount hs <= count hs ->
  ∃ hs', Stat hs m = Some hs'
         ∧ count hs' = count hs + 1
         ∧ errCount hs' = errCount hs + (if isErr m then 1 else 0)
         ∧ reqSize hs' = u64 (reqSize hs + ReqSize m)
         ∧ respSize hs' = u64 (respSize hs + RespSize m).
Proof.
  intros Hc Hlt He. unfold Stat. cbv zeta.
  rewrite (u64_small (count hs + 1)) by lia.
  assert (Herr : (if isErr m then u64 (errCount hs + 1) else errCount hs)
                 = errCount hs + (if isErr m then 1 else 0)).
  { destruct (isErr m); [apply u64_small|]; lia. }
  rewrite Herr.
  destruct (Z.eqb_spec (count hs + 1) 1) as [H1|H1].
  - eexists. split; [reflexivity|]. cbn. done.
  - destruct (Z.eqb_spec (count hs + 1) 0) as [H0|H0]; [lia|].
    eexists. split; [reflexivity|]. cbn. done.
Qed.

Lemma StatAll_counters ms : ∀ hs,
  0 <= count hs -> count hs + Z.of_nat (length ms) < 2 ^ 64 ->
  0 <= errCount hs <= count hs ->
  reqSize hs = u64 (reqSize hs) -> respSize hs = u64 (respSize hs) ->
  ∃ hs', StatAll hs ms = Some hs'
         ∧ count hs' = count hs + Z.of_nat (length ms)
         ∧ errCount hs' = errCount hs + errors ms
         ∧ reqSize hs' = u64 (reqSize hs + sum (map ReqSize ms))
         ∧ respSize hs' = u64 (respSize hs + sum (map RespSize ms)).
Proof.
  induction ms as [|m ms IH]; intros hs Hc Hlt He Hreq Hresp.
  - exists hs. unfold errors, sum. cbn. rewrite !Z.add_0_r. done.
  - cbn [length] in Hlt.
    destruct (Stat_counters hs m Hc ltac:(lia) He)
      as (hs1 & HS & Hc1 & He1 & Hq1 & Hp1).
    destruct (IH hs1) as (hs' & HA & Hc' & He' & Hq' & Hp').
    + lia.
    + lia.
    + destruct (isErr m); lia.
    + rewrite Hq1. unfold u64, wrap. by rewrite Zmod_mod.
    + rewrite Hp1. unfold u64, wrap. by rewrite Zmod_mod.
    + exists hs'. cbn [StatAll]. rewrite HS. split; [exact HA|].
      split; [cbn [length]; lia|]. split.
      { rewrite He', He1. unfold errors. cbn [List.filter].
        destruct (isErr m); cbn [length]; lia. }
      split.
      * rewrite Hq', Hq1, u64_add_l. unfold sum. cbn [map foldr]. f_equal. lia.
      * rewrite Hp', Hp1, u64_add_l. unfold sum. cbn [map foldr]. f_equal. lia.
Qed.

Lemma errors_bounds ms : 0 <= errors ms <= Z.of_nat (length ms).
Proof.
  unfold errors. pose proof (List.filter_length_le isErr ms). lia.
Qed.

(** X28. Fewer than 2^64 [Stat] calls on a new [HTTPStat] never panic, and
    afterwards [count] is the number of calls, [errCount] is the number of
    metrics whose status code is 400 or more (so at most [count]), and
    [reqSize] and [respSize] are the sums of the request and response sizes
    in uint64 arithmetic. *)
Theorem Stat_counts (ms : list Metric) :
  Z.of_nat (length ms) < 2 ^ 64 ->
  ∃ hs, StatAll New ms = Some hs
        ∧ count hs = Z.of_nat (length ms)
        ∧ errCount hs = errors ms
        ∧ errCount hs <= count hs
        ∧ reqSize hs = u64 (sum (map ReqSize ms))
        ∧ respSize hs = u64 (sum (map RespSize ms)).
Proof.
  intros Hlen.
  destruct (StatAll_counters ms New) as (hs & HA & Hc & He & Hq & Hp);
    cbn [count errCount reqSize respSize New]; try done; try lia.
  exists hs. cbn [count errCount reqSize respSize New] in *.
  pose proof (errors_bounds ms).
  repeat split; try done; lia.
Qed.

Lemma Stat_counts_witness :
  ∃ hs, StatAll New [backwards;
                     {| StatusCode := 503; Duration := 2000000;
                        ReqSize := 2 ^ 64 - 1; RespSize := 7 |};
                     {| StatusCode := 400; Duration := 0;
                        ReqSize := 2; RespSize := 0 |}] = Some hs
        ∧ count hs = 3 ∧ errCount hs = 2 ∧ reqSize hs = 1 ∧ respSize hs = 7.
Proof.
  destruct (Stat_counts [backwards;
                     {| StatusCode := 503; Duration := 2000000;
                        ReqSize := 2 ^ 64 - 1; RespSize := 7 |};
                     {| StatusCode := 400; Duration := 0;
                        ReqSize := 2; RespSize := 0 |}])
    as (hs & HA & Hc & He & _ & Hq & Hp).
  - cbn. lia.
  - exists hs. split; [exact HA|]. split; [exact Hc|]. split; [exact He|].
    split; [exact Hq | exact Hp].
Defined.

End HttpStatFacts.
